(** * The WebGL context pool of [src/MediaEffect.ts]

    A shallow embedding of the class [WebGLContextManager] and of the part of
    the browser it talks to, followed by the properties of the pool.

    Objects that the source compares by identity (rendering contexts, the
    canvases used as keys of the [WeakMap]) are references: a natural number
    standing for the object.  The state of a rendering context lives in a
    store indexed by its reference, so the entry of the pool, the [WeakMap]
    and the caller all alias the same context, as in the source.

    What the browser decides is an input of the call that asks for it: the
    values of [Date.now()] and whether [canvas.getContext('webgl2')] gives a
    context.  Numbers that the source only stores, copies and compares
    (timestamps, sizes) are integers.  The targets of the calls stay alive:
    the collection of a key of the [WeakMap] is not part of the model. *)

From stdpp Require Import gmap list sorting strings pretty.

Open Scope Z_scope.

(** ** The WebGL state a caller or the pool can observe *)

Module GL.

Inductive Color := RGBA (r g b a : Z).

Definition transparent : Color := RGBA 0 0 0 0.

(** The colour buffer: filled by the last [clear], or the result of a draw
    call. *)
Inductive Pixels := Uniform (c : Color) | Rendered.

Inductive BufferTarget := ARRAY_BUFFER | ELEMENT_ARRAY_BUFFER.

Inductive BlendFactor := ZERO | ONE | SRC_ALPHA | ONE_MINUS_SRC_ALPHA.

(** The attributes given to [canvas.getContext('webgl2', ...)]. *)
Record Attributes := {
  alpha : bool;
  premultipliedAlpha : bool;
  preserveDrawingBuffer : bool;
  antialias : bool;
}.

(** [None] is the source's [null] binding.  [textures] holds the
    [TEXTURE_2D] binding of every texture unit that has one. *)
Record State := {
  attributes : Attributes;
  program : option nat;
  arrayBuffer : option nat;
  elementArrayBuffer : option nat;
  activeUnit : nat;
  textures : gmap nat nat;
  framebuffer : option nat;
  renderbuffer : option nat;
  clearValue : Color;
  colorBuffer : Pixels;
  blend : bool;
  blendFactors : BlendFactor * BlendFactor;
}.

(** A context as the browser hands it out. *)
Definition fresh (a : Attributes) : State :=
  {| attributes := a; program := None; arrayBuffer := None;
     elementArrayBuffer := None; activeUnit := 0%nat; textures := ∅;
     framebuffer := None; renderbuffer := None;
     clearValue := transparent; colorBuffer := Uniform transparent;
     blend := false; blendFactors := (ONE, ZERO) |}.

(** The calls of the API that the repository makes and that change the
    state above.  [bindTexture] is [gl.bindTexture(gl.TEXTURE_2D, _)],
    [clear] is [gl.clear(gl.COLOR_BUFFER_BIT)], [enableBlend] is
    [gl.enable(gl.BLEND)].  [clear] and [drawArrays] write the colour
    buffer of the canvas: the repository binds no framebuffer object and
    sets no scissor or colour mask that would redirect or restrict them. *)
Inductive Call :=
| useProgram (p : option nat)
| bindBuffer (t : BufferTarget) (b : option nat)
| activeTexture (unit : nat)
| bindTexture (t : option nat)
| bindFramebuffer (f : option nat)
| bindRenderbuffer (r : option nat)
| clearColor (r g b a : Z)
| clear
| enableBlend
| blendFunc (s d : BlendFactor)
| drawArrays.

Definition exec (c : Call) (st : State) : State :=
  let '{| attributes := at0; program := pr; arrayBuffer := ab;
          elementArrayBuffer := eb; activeUnit := au; textures := tx;
          framebuffer := fb; renderbuffer := rb; clearValue := cv;
          colorBuffer := cb; blend := bl; blendFactors := bf |} := st in
  match c with
  | useProgram p =>
      Build_State at0 p ab eb au tx fb rb cv cb bl bf
  | bindBuffer ARRAY_BUFFER b =>
      Build_State at0 pr b eb au tx fb rb cv cb bl bf
  | bindBuffer ELEMENT_ARRAY_BUFFER b =>
      Build_State at0 pr ab b au tx fb rb cv cb bl bf
  | activeTexture u =>
      Build_State at0 pr ab eb u tx fb rb cv cb bl bf
  | bindTexture (Some t) =>
      Build_State at0 pr ab eb au (<[au := t]> tx) fb rb cv cb bl bf
  | bindTexture None =>
      Build_State at0 pr ab eb au (delete au tx) fb rb cv cb bl bf
  | bindFramebuffer f =>
      Build_State at0 pr ab eb au tx f rb cv cb bl bf
  | bindRenderbuffer r =>
      Build_State at0 pr ab eb au tx fb r cv cb bl bf
  | clearColor r g b a =>
      Build_State at0 pr ab eb au tx fb rb (RGBA r g b a) cb bl bf
  | clear =>
      Build_State at0 pr ab eb au tx fb rb cv (Uniform cv) bl bf
  | enableBlend =>
      Build_State at0 pr ab eb au tx fb rb cv cb true bf
  | blendFunc s d =>
      Build_State at0 pr ab eb au tx fb rb cv cb bl (s, d)
  | drawArrays =>
      Build_State at0 pr ab eb au tx fb rb cv Rendered bl bf
  end.

Definition run (cs : list Call) (st : State) : State :=
  foldl (λ acc c, exec c acc) st cs.

(** Nothing is bound: what a new owner of the context expects to find. *)
Definition unbound (st : State) : Prop :=
  program st = None ∧ arrayBuffer st = None ∧ elementArrayBuffer st = None
  ∧ textures st = ∅ ∧ framebuffer st = None ∧ renderbuffer st = None.

End GL.

(** ** Canvases *)

(** An [HTMLCanvasElement] passed by a caller: its identity, and its size at
    the time of the call. *)
Record TargetCanvas := {
  target : nat;
  width : Z;
  height : Z;
}.

(** The hidden canvas an entry owns.  It is never a key, so it carries no
    identity. *)
Record BackingCanvas := {
  backingWidth : Z;
  backingHeight : Z;
  displayNone : bool;
}.

(** ** The pool *)

Record ContextEntry := {
  gl : nat;
  canvas : BackingCanvas;
  isInUse : bool;
  lastUsed : Z;
}.

(** The fields of [WebGLContextManager], the store [webgl] of the rendering
    contexts that exist, and the number [allocated] of contexts the browser
    has created: the next one gets this number as its reference. *)
Record Manager := {
  contexts : list ContextEntry;
  maxContexts : nat;
  contextMap : gmap nat nat;
  webgl : gmap nat GL.State;
  allocated : nat;
}.

(** [new WebGLContextManager()], with the capacity as a parameter; the
    source fixes it to 14. *)
Definition newManager (capacity : nat) : Manager :=
  {| contexts := []; maxContexts := capacity; contextMap := ∅;
     webgl := ∅; allocated := 0%nat |}.

Definition newWebGLContextManager : Manager := newManager 14.

(** What one call of [getContext] reads from the browser: whether
    [canvas.getContext('webgl2')] gives a context, the value of [Date.now()]
    in [createNewContext] and the value of [Date.now()] in
    [assignContextToCanvas] or [markContextAsUsed]. *)
Record Env := {
  webgl2 : bool;
  tCreate : Z;
  tNow : Z;
}.

Definition setContexts (l : list ContextEntry) (m : Manager) : Manager :=
  {| contexts := l; maxContexts := maxContexts m; contextMap := contextMap m;
     webgl := webgl m; allocated := allocated m |}.

Definition setContextMap (cm : gmap nat nat) (m : Manager) : Manager :=
  {| contexts := contexts m; maxContexts := maxContexts m; contextMap := cm;
     webgl := webgl m; allocated := allocated m |}.

Definition setWebgl (h : gmap nat GL.State) (m : Manager) : Manager :=
  {| contexts := contexts m; maxContexts := maxContexts m;
     contextMap := contextMap m; webgl := h; allocated := allocated m |}.

(** The caller, or the pool, makes calls on the context [g]. *)
Definition glCalls (g : nat) (cs : list GL.Call) (m : Manager) : Manager :=
  setWebgl (alter (GL.run cs) g (webgl m)) m.

(** The two predicates of the source's [find] and [filter] calls. *)
Definition unused (e : ContextEntry) : Prop := isInUse e = false.
Definition tracks (g : nat) (e : ContextEntry) : Prop := gl e = g.

Global Instance unused_dec e : Decision (unused e).
Proof. unfold unused. apply _. Defined.
Global Instance tracks_dec g e : Decision (tracks g e).
Proof. unfold tracks. apply _. Defined.

(** [markContextAsUsed] *)
Definition touch (now : Z) (e : ContextEntry) : ContextEntry :=
  {| gl := gl e; canvas := canvas e; isInUse := isInUse e; lastUsed := now |}.

Definition markContextAsUsed (context : nat) (now : Z) (m : Manager) : Manager :=
  match list_find (tracks context) (contexts m) with
  | Some (i, _) => setContexts (alter (touch now) i (contexts m)) m
  | None => m
  end.

(** [assignContextToCanvas]: the entry is the one at index [i] of the pool. *)
Definition assign (c : TargetCanvas) (now : Z) (e : ContextEntry) : ContextEntry :=
  {| gl := gl e;
     canvas := {| backingWidth := width c; backingHeight := height c;
                  displayNone := displayNone (canvas e) |};
     isInUse := true; lastUsed := now |}.

Definition assignContextToCanvas (i : nat) (targetCanvas : TargetCanvas)
    (now : Z) (m : Manager) : Manager :=
  match contexts m !! i with
  | Some entry =>
      setContextMap (<[target targetCanvas := gl entry]> (contextMap m))
        (setContexts (alter (assign targetCanvas now) i (contexts m)) m)
  | None => m
  end.

(** [createNewContext]: the new entry and its index, or [None] when the
    browser gives no context. *)
Definition contextAttributes : GL.Attributes :=
  {| GL.alpha := true; GL.premultipliedAlpha := false;
     GL.preserveDrawingBuffer := false; GL.antialias := false |}.

Definition createNewContext (env : Env) (m : Manager)
    : Manager * option (nat * ContextEntry) :=
  if webgl2 env then
    let g := allocated m in
    let st := GL.run [GL.enableBlend; GL.blendFunc GL.SRC_ALPHA GL.ONE_MINUS_SRC_ALPHA]
                (GL.fresh contextAttributes) in
    let entry := {| gl := g;
                    canvas := {| backingWidth := 1; backingHeight := 1;
                                 displayNone := true |};
                    isInUse := false; lastUsed := tCreate env |} in
    ({| contexts := contexts m ++ [entry]; maxContexts := maxContexts m;
        contextMap := contextMap m; webgl := <[g := st]> (webgl m);
        allocated := S g |},
     Some (length (contexts m), entry))
  else (m, None).

(** [Array.prototype.reduce] without an initial value; [None] is its
    [TypeError] on an empty array. *)
Definition reduce {A} (f : A → A → A) (l : list A) : option A :=
  match l with
  | [] => None
  | x :: l' => Some (foldl f x l')
  end.

Definition older (oldest current : nat * ContextEntry) : nat * ContextEntry :=
  if decide (lastUsed current.2 < lastUsed oldest.2) then current else oldest.

(** [findOldestUnusedContext], each entry with its index in the pool. *)
Definition findOldestUnusedContext (m : Manager) : option (nat * ContextEntry) :=
  let unusedContexts := filter (λ p, unused p.2) (imap pair (contexts m)) in
  if decide (length unusedContexts = 0%nat) then None
  else reduce older unusedContexts.

(** [cleanupContext] *)
Definition cleanupCalls : list GL.Call :=
  [GL.useProgram None;
   GL.bindBuffer GL.ARRAY_BUFFER None;
   GL.bindBuffer GL.ELEMENT_ARRAY_BUFFER None;
   GL.bindTexture None;
   GL.bindFramebuffer None;
   GL.bindRenderbuffer None;
   GL.clearColor 0 0 0 0;
   GL.clear].

Definition cleanupContext (g : nat) (m : Manager) : Manager :=
  glCalls g cleanupCalls m.

(** The [return] statement by which a call of [getContext] ends. *)
Inductive Branch := CacheHit | ReusedFree | CreatedNew | Evicted | Exhausted.

(** [getContext]: the new state, the context returned ([None] is [null])
    and the branch taken. *)
Definition getContext (canvas : TargetCanvas) (env : Env) (m : Manager)
    : Manager * option nat * Branch :=
  match contextMap m !! target canvas with
  | Some existingContext =>
      (markContextAsUsed existingContext (tNow env) m, Some existingContext, CacheHit)
  | None =>
      match list_find unused (contexts m) with
      | Some (i, freeEntry) =>
          (assignContextToCanvas i canvas (tNow env) m, Some (gl freeEntry), ReusedFree)
      | None =>
          let '(m1, newEntry) :=
            if decide (length (contexts m) < maxContexts m)%nat
            then createNewContext env m else (m, None) in
          match newEntry with
          | Some (i, entry) =>
              (assignContextToCanvas i canvas (tNow env) m1, Some (gl entry), CreatedNew)
          | None =>
              match findOldestUnusedContext m1 with
              | Some (i, oldestEntry) =>
                  (assignContextToCanvas i canvas (tNow env)
                     (cleanupContext (gl oldestEntry) m1),
                   Some (gl oldestEntry), Evicted)
              | None => (m1, None, Exhausted)
              end
          end
      end
  end.

(** [releaseContext] *)
Definition idle (now : Z) (e : ContextEntry) : ContextEntry :=
  {| gl := gl e; canvas := canvas e; isInUse := false; lastUsed := now |}.

Definition releaseContext (canvas : TargetCanvas) (now : Z) (m : Manager) : Manager :=
  match contextMap m !! target canvas with
  | None => m
  | Some context =>
      let m1 :=
        match list_find (tracks context) (contexts m) with
        | Some (i, _) =>
            glCalls context [GL.clearColor 0 0 0 0; GL.clear]
              (setContexts (alter (idle now) i (contexts m)) m)
        | None => m
        end in
      setContextMap (delete (target canvas) (contextMap m1)) m1
  end.

(** The conversion of an integer to the IDL type [unsigned long]. *)
Definition toUint32 (x : Z) : Z := x mod 4294967296.

(** What [canvas.width = x] (with [default] 300) or [canvas.height = x]
    (with [default] 150) leaves as the size of the canvas: the number is
    converted to [unsigned long], and a result above 2147483647 is replaced
    by the default of the attribute. *)
Definition canvasSize (default x : Z) : Z :=
  if decide (toUint32 x ≤ 2147483647) then toUint32 x else default.

(** [updateContextSize]: [width] and [height] are any numbers, here
    integers, and the two assignments convert them. *)
Definition resize (w h : Z) (e : ContextEntry) : ContextEntry :=
  {| gl := gl e;
     canvas := {| backingWidth := canvasSize 300 w;
                  backingHeight := canvasSize 150 h;
                  displayNone := displayNone (canvas e) |};
     isInUse := isInUse e; lastUsed := lastUsed e |}.

Definition updateContextSize (g : nat) (w h : Z) (m : Manager) : Manager :=
  match list_find (tracks g) (contexts m) with
  | Some (i, _) => setContexts (alter (resize w h) i (contexts m)) m
  | None => m
  end.

(** [getStats] *)
Record Stats := { total : nat; inUse : nat; free : nat }.

Definition getStats (m : Manager) : Stats :=
  {| total := length (contexts m);
     inUse := length (filter (λ e, isInUse e = true) (contexts m));
     free := length (filter unused (contexts m)) |}.

(** ** The presenter *)

(** What has been drawn on the 2D context of a visible canvas, oldest first.
    [drawImage] records the size and the pixels of the source canvas. *)
Inductive Draw2D :=
| clearRect (x y w h : Z)
| drawImage (source : BackingCanvas) (pixels : option GL.Pixels) (dx dy : Z).

Inductive DOMException := InvalidStateError.

Inductive Outcome (A : Type) :=
| Returned (a : A)
| Thrown (error : DOMException) (a : A).
Arguments Returned {A} a.
Arguments Thrown {A} error a.

(** [renderToCanvas].  [context2d] is what [targetCanvas.getContext('2d')]
    gives: [None] for [null], otherwise the drawing made so far.  The result
    is the drawing afterwards.  The method reads the pool and writes none of
    its fields.  In the browser [drawImage] throws an [InvalidStateError]
    when the source canvas has a side of length zero. *)
Definition renderToCanvas (sourceGl : nat) (targetCanvas : TargetCanvas)
    (context2d : option (list Draw2D)) (m : Manager)
    : Outcome (option (list Draw2D)) :=
  match context2d with
  | None => Returned None
  | Some drawn =>
      match list_find (tracks sourceGl) (contexts m) with
      | None => Returned (Some drawn)
      | Some (_, sourceEntry) =>
          let cleared :=
            drawn ++ [clearRect 0 0 (width targetCanvas) (height targetCanvas)] in
          let source := canvas sourceEntry in
          if decide (backingWidth source = 0 ∨ backingHeight source = 0)
          then Thrown InvalidStateError (Some cleared)
          else Returned (Some (cleared ++
                 [drawImage source (GL.colorBuffer <$> webgl m !! sourceGl) 0 0]))
      end
  end.

(** ** A caller: [MediaEffect.render] *)

(** The objects [MediaEffect] keeps for a context in its [FxCache]. *)
Record FxCache := {
  fxProgram : nat;
  positionBuffer : nat;
  texCoordBuffer : nat;
  texture : nat;
  pattern1Texture : nat;
  pattern2Texture : nat;
}.

(** The calls of [MediaEffect.render] that change the state of the context,
    in the order of the source, for a renderer that is ready and whose cache
    for the context is filled. *)
Definition renderCalls (updatesOnRender : bool) (fx : FxCache) : list GL.Call :=
  (if updatesOnRender
   then [GL.activeTexture 0; GL.bindTexture (Some (texture fx))]
   else []) ++
  [GL.clearColor 0 0 0 0;
   GL.clear;
   GL.bindBuffer GL.ARRAY_BUFFER (Some (positionBuffer fx));
   GL.useProgram (Some (fxProgram fx));
   GL.bindBuffer GL.ARRAY_BUFFER (Some (positionBuffer fx));
   GL.bindBuffer GL.ARRAY_BUFFER (Some (texCoordBuffer fx));
   GL.activeTexture 0;
   GL.bindTexture (Some (texture fx));
   GL.activeTexture 1;
   GL.bindTexture (Some (pattern1Texture fx));
   GL.activeTexture 2;
   GL.bindTexture (Some (pattern2Texture fx));
   GL.drawArrays].

(** ** Sequences of calls *)

(** What the callers of the pool do to it: the two calls that acquire and
    release, the resize, and drawing with a context. *)
Inductive Op :=
| OpGetContext (canvas : TargetCanvas) (env : Env)
| OpReleaseContext (canvas : TargetCanvas) (now : Z)
| OpUpdateContextSize (g : nat) (w h : Z)
| OpGl (g : nat) (calls : list GL.Call).

Definition step (m : Manager) (op : Op) : Manager :=
  match op with
  | OpGetContext c env => (getContext c env m).1.1
  | OpReleaseContext c now => releaseContext c now m
  | OpUpdateContextSize g w h => updateContextSize g w h m
  | OpGl g calls => glCalls g calls m
  end.

Definition run (ops : list Op) (m : Manager) : Manager := foldl step m ops.

(** The value and the branch of a call of [getContext]. *)
Definition returned (r : Manager * option nat * Branch) : option nat := r.1.2.
Definition branch (r : Manager * option nat * Branch) : Branch := r.2.
Definition after (r : Manager * option nat * Branch) : Manager := r.1.1.

(** ** The renderer [MediaEffect] and its cache *)

(** The part of the class [MediaEffect] that decides which objects of a
    context are created, kept and bound.  The methods run on a [World]: the
    fields [cache] and [statusListeners] of the renderer, and a record of
    what the methods did to the outside, in the order in which they did it:
    the calls on rendering contexts (those of [GL.Call]), the calls of the
    status listeners, and the number of calls of [console.error].  A
    listener is a reference; what a listener does when called is not part
    of the model. *)
Module MediaEffect.

(** The objects of a filled cache, as [renderCalls] takes them. *)
Definition filled (fx : FxCache) : nat * nat * nat * nat * nat * nat :=
  (fxProgram fx, texture fx, pattern1Texture fx, pattern2Texture fx,
   positionBuffer fx, texCoordBuffer fx).

(** The keys of [FxCache]. *)
Inductive Key :=
| KProgram | KTexture | KPattern1Texture | KPattern2Texture
| KPositionBuffer | KTexCoordBuffer.

(** [FxCache]: every field is optional, [None] is [undefined]. *)
Record Slots := {
  program : option nat;
  texture : option nat;
  pattern1Texture : option nat;
  pattern2Texture : option nat;
  positionBuffer : option nat;
  texCoordBuffer : option nat;
}.

(** The object [{}]. *)
Definition noSlots : Slots :=
  {| program := None; texture := None; pattern1Texture := None;
     pattern2Texture := None; positionBuffer := None; texCoordBuffer := None |}.

(** [record[param]] and [record[param] = value]. *)
Definition get (k : Key) (r : Slots) : option nat :=
  match k with
  | KProgram => program r
  | KTexture => texture r
  | KPattern1Texture => pattern1Texture r
  | KPattern2Texture => pattern2Texture r
  | KPositionBuffer => positionBuffer r
  | KTexCoordBuffer => texCoordBuffer r
  end.

Definition set (k : Key) (v : option nat) (r : Slots) : Slots :=
  let '{| program := p; texture := t; pattern1Texture := p1;
          pattern2Texture := p2; positionBuffer := pb;
          texCoordBuffer := tb |} := r in
  match k with
  | KProgram => Build_Slots v t p1 p2 pb tb
  | KTexture => Build_Slots p v p1 p2 pb tb
  | KPattern1Texture => Build_Slots p t v p2 pb tb
  | KPattern2Texture => Build_Slots p t p1 v pb tb
  | KPositionBuffer => Build_Slots p t p1 p2 v tb
  | KTexCoordBuffer => Build_Slots p t p1 p2 pb v
  end.

(** The argument of a status listener: ['ready'], or ['error'] with a
    message. *)
Inductive Status := Ready | Error (message : string).

Record World := {
  cache : gmap nat Slots;
  statusListeners : list nat;
  issued : list (nat * GL.Call);
  notified : list (nat * Status);
  consoleErrors : nat;
}.

Definition setCache (c : gmap nat Slots) (w : World) : World :=
  {| cache := c; statusListeners := statusListeners w; issued := issued w;
     notified := notified w; consoleErrors := consoleErrors w |}.

(** The context [g] receives the calls [calls]. *)
Definition issue (g : nat) (calls : list GL.Call) (w : World) : World :=
  {| cache := cache w; statusListeners := statusListeners w;
     issued := issued w ++ ((λ call, (g, call)) <$> calls);
     notified := notified w; consoleErrors := consoleErrors w |}.

(** [this.statusListeners.forEach((listener) => listener(status))] *)
Definition notify (status : Status) (w : World) : World :=
  {| cache := cache w; statusListeners := statusListeners w;
     issued := issued w;
     notified := notified w ++ ((λ l, (l, status)) <$> statusListeners w);
     consoleErrors := consoleErrors w |}.

Definition consoleError (w : World) : World :=
  {| cache := cache w; statusListeners := statusListeners w;
     issued := issued w; notified := notified w;
     consoleErrors := S (consoleErrors w) |}.

(** [subscribeStatus] *)
Definition subscribeStatus (listener : nat) (w : World) : World :=
  {| cache := cache w; statusListeners := statusListeners w ++ [listener];
     issued := issued w; notified := notified w;
     consoleErrors := consoleErrors w |}.

(** The three [Error]s that the class throws: ['Cannot create program'],
    ['cannot create shader'], ['Cannot create position buffer']. *)
Inductive Failure :=
| CannotCreateProgram | CannotCreateShader | CannotCreatePositionBuffer.

(** A method returns a value, or throws; either way it leaves a world. *)
Inductive Result (A : Type) :=
| Done (a : A) (w : World)
| Failed (e : Failure) (w : World).
Arguments Done {A} a w.
Arguments Failed {A} e w.

Definition world {A} (r : Result A) : World :=
  match r with Done _ w => w | Failed _ w => w end.

Definition andThen {A B} (r : Result A) (k : A → World → Result B) : Result B :=
  match r with
  | Done a w => k a w
  | Failed e w => Failed e w
  end.

Inductive ShaderType := VERTEX_SHADER | FRAGMENT_SHADER.

(** What the context answers during one call of [ensureCache]: the object
    or [null] of each [create...] call, by the place of the call in the
    source, and for each shader its [COMPILE_STATUS] and its info log. *)
Record Gpu := {
  createProgram : option nat;
  createShader : ShaderType → option nat;
  compileStatus : ShaderType → bool;
  shaderInfoLog : ShaderType → option string;
  createPositionBufferObject : option nat;
  createTexCoordBufferObject : option nat;
  createTexture : Key → option nat;
}.

(** [cacheGet] *)
Definition cacheGet (g : nat) (param : Key) (w : World) : option nat :=
  cache w !! g ≫= get param.

(** [cacheSet] *)
Definition cacheSet (g : nat) (param : Key) (value : option nat) (w : World)
    : World :=
  let c :=
    match cache w !! g with
    | None => <[g := noSlots]> (cache w)
    | Some _ => cache w
    end in
  setCache (alter (set param value) g c) w.

(** [compileShader].  The calls [shaderSource], [compileShader] and
    [deleteShader] change nothing that the model holds. *)
Definition compileShader (g : nat) (shaderType : ShaderType) (gpu : Gpu)
    (w : World) : Result nat :=
  match createShader gpu shaderType with
  | None => Failed CannotCreateShader w
  | Some shader =>
      if compileStatus gpu shaderType then Done shader (notify Ready w)
      else
        let w1 :=
          match shaderInfoLog gpu shaderType with
          | Some (String a s) => notify (Error (String a s)) w
          | _ => w
          end in
        Done shader (consoleError w1)
  end.

(** [compileProgram] *)
Definition compileProgram (g : nat) (gpu : Gpu) (w : World) : Result unit :=
  match createProgram gpu with
  | None => Failed CannotCreateProgram w
  | Some prog =>
      andThen (compileShader g VERTEX_SHADER gpu w) (λ vertex w1,
      andThen (compileShader g FRAGMENT_SHADER gpu w1) (λ fragment w2,
      Done tt (cacheSet g KProgram (Some prog) w2)))
  end.

(** [createPositionBuffer] *)
Definition createPositionBuffer (g : nat) (gpu : Gpu) (w : World)
    : Result unit :=
  match createPositionBufferObject gpu with
  | None => Failed CannotCreatePositionBuffer w
  | Some buffer => Done tt (cacheSet g KPositionBuffer (Some buffer) w)
  end.

(** [createTexCoordBuffer] *)
Definition createTexCoordBuffer (g : nat) (gpu : Gpu) (w : World) : World :=
  match createTexCoordBufferObject gpu with
  | None => w
  | Some buffer =>
      cacheSet g KTexCoordBuffer (Some buffer)
        (issue g [GL.bindBuffer GL.ARRAY_BUFFER (Some buffer)] w)
  end.

(** [loadTexture]; [ready] is [this.ready()]. *)
Definition loadTexture (g : nat) (ready : bool) (cacheKey : Key) (gpu : Gpu)
    (w : World) : World :=
  if negb ready then w
  else
    match createTexture gpu cacheKey with
    | None => w
    | Some tex =>
        cacheSet g cacheKey (Some tex) (issue g [GL.bindTexture (Some tex)] w)
    end.

(** [if (!this.cacheGet(gl, k)) { create }], for a creation that does not
    throw. *)
Definition unlessCached (g : nat) (k : Key) (create : World → World)
    (w : World) : World :=
  match cacheGet g k w with
  | None => create w
  | Some _ => w
  end.

(** [ensureCache] *)
Definition ensureCache (g : nat) (ready : bool) (gpu : Gpu) (w : World)
    : Result unit :=
  andThen (match cacheGet g KProgram w with
           | None => compileProgram g gpu w
           | Some _ => Done tt w
           end) (λ _ w1,
  andThen (match cacheGet g KPositionBuffer w1 with
           | None => createPositionBuffer g gpu w1
           | Some _ => Done tt w1
           end) (λ _ w2,
  let w3 := unlessCached g KTexCoordBuffer (createTexCoordBuffer g gpu) w2 in
  let w4 := unlessCached g KTexture (loadTexture g ready KTexture gpu) w3 in
  let w5 := unlessCached g KPattern1Texture
              (loadTexture g ready KPattern1Texture gpu) w4 in
  let w6 := unlessCached g KPattern2Texture
              (loadTexture g ready KPattern2Texture gpu) w5 in
  Done tt w6)).

(** [prepare] *)
Definition prepare (g : nat) (ready : bool) (gpu : Gpu) (w : World)
    : Result unit :=
  ensureCache g ready gpu w.

(** [render], with [setupPosition] in its place; [updatesOnRender] is
    [this.textureManager.updatesOnRender()]. *)
Definition render (g : nat) (ready updatesOnRender : bool) (gpu : Gpu)
    (w : World) : Result unit :=
  if negb ready then Done tt w
  else
    andThen (ensureCache g ready gpu w) (λ _ w1,
      let prog := cacheGet g KProgram w1 in
      let posBuffer := cacheGet g KPositionBuffer w1 in
      let texBuffer := cacheGet g KTexCoordBuffer w1 in
      let tex := cacheGet g KTexture w1 in
      let pattern1 := cacheGet g KPattern1Texture w1 in
      let pattern2 := cacheGet g KPattern2Texture w1 in
      let w2 :=
        if updatesOnRender
        then issue g [GL.activeTexture 0; GL.bindTexture tex] w1
        else w1 in
      Done tt (issue g
        [GL.clearColor 0 0 0 0;
         GL.clear;
         GL.bindBuffer GL.ARRAY_BUFFER posBuffer;
         GL.useProgram prog;
         GL.bindBuffer GL.ARRAY_BUFFER posBuffer;
         GL.bindBuffer GL.ARRAY_BUFFER texBuffer;
         GL.activeTexture 0;
         GL.bindTexture tex;
         GL.activeTexture 1;
         GL.bindTexture pattern1;
         GL.activeTexture 2;
         GL.bindTexture pattern2;
         GL.drawArrays] w2)).

(** The cache of [w'] holds what the cache of [w] holds for the context
    [g], and the same as it for the other contexts; the listeners are the
    same. *)
Definition extends (g : nat) (w w' : World) : Prop :=
  (∀ k v, cacheGet g k w = Some v → cacheGet g k w' = Some v)
  ∧ (∀ g' k, g' ≠ g → cacheGet g' k w' = cacheGet g' k w)
  ∧ statusListeners w' = statusListeners w.

(** What the listeners are told about one shader. *)
Definition shaderNotes (gpu : Gpu) (shaderType : ShaderType) (w : World)
    : list (nat * Status) :=
  if compileStatus gpu shaderType
  then (λ l, (l, Ready)) <$> statusListeners w
  else
    match shaderInfoLog gpu shaderType with
    | Some (String a s) => (λ l, (l, Error (String a s))) <$> statusListeners w
    | _ => []
    end.

(** The objects of a record in which every field is set. *)
Definition complete (fx : FxCache) (r : Slots) : Prop :=
  let '(p, t, p1, p2, pb, tb) := filled fx in
  r = {| program := Some p; texture := Some t; pattern1Texture := Some p1;
         pattern2Texture := Some p2; positionBuffer := Some pb;
         texCoordBuffer := Some tb |}.

(** The calls that a renderer has issued reach the contexts of the store
    of the pool one by one. *)
Definition perform (calls : list (nat * GL.Call)) (m : Manager) : Manager :=
  foldl (λ acc call, glCalls call.1 [call.2] acc) m calls.

(** A renderer that has been constructed and has done nothing yet. *)
Definition new : World :=
  {| cache := ∅; statusListeners := []; issued := []; notified := [];
     consoleErrors := 0 |}.

(** A context that gives every object it is asked for, and a renderer
    with one listener whose cache for the context 0 is filled from it. *)
Definition generous : Gpu :=
  {| createProgram := Some 1%nat;
     createShader := λ ty, Some match ty with
                                | VERTEX_SHADER => 7 | FRAGMENT_SHADER => 8
                                end%nat;
     compileStatus := λ _, true;
     shaderInfoLog := λ _, None;
     createPositionBufferObject := Some 2%nat;
     createTexCoordBufferObject := Some 3%nat;
     createTexture := λ k, Some match k with
                                | KTexture => 4 | KPattern1Texture => 5
                                | _ => 6
                                end%nat |}.

Definition warm : World :=
  world (ensureCache 0 true generous (subscribeStatus 9 new)).

End MediaEffect.

(** ** The texture sources *)

(** [src/ImageTextureManager.ts]: the address that the constructor gives the
    image, for the address [url] it is called with and the value [now] of
    [Date.now()]. *)
Module ImageTextureManager.

Definition src (url : string) (now : Z) : string :=
  if String.prefix "blob" url then url
  else (url +:+ "?dt=" +:+ pretty now)%string.

End ImageTextureManager.

(** [src/VideoTextureManager.ts].  The manager changes when one of its
    methods is called and when the browser runs one of its two callbacks:
    the handler of [loadedmetadata], which calls [video.play()], and the
    callback given to [then], which runs when a promise of [play()] is
    fulfilled.  [playing] counts the promises of [play()] that are neither
    fulfilled nor rejected yet; [called] records the calls of the
    listeners, oldest first. *)
Module VideoTextureManager.

Record State := {
  listeners : list nat;
  isReady : bool;
  playing : nat;
  called : list (nat * bool);
}.

(** After the constructor. *)
Definition new : State :=
  {| listeners := []; isReady := false; playing := 0; called := [] |}.

Inductive Event :=
| OnReadyStatusChange (listener : nat)
| LoadedMetadata
| PlayFulfilled
| PlayRejected.

(** [onReadyStatusChange], the handler of [loadedmetadata], and the two
    ways a promise of [play()] settles; without a pending promise the last
    two do not happen, and change nothing here. *)
Definition step (s : State) (ev : Event) : State :=
  match ev with
  | OnReadyStatusChange listener =>
      {| listeners := listeners s ++ [listener]; isReady := isReady s;
         playing := playing s; called := called s |}
  | LoadedMetadata =>
      {| listeners := listeners s; isReady := isReady s;
         playing := S (playing s); called := called s |}
  | PlayFulfilled =>
      match playing s with
      | O => s
      | S n =>
          {| listeners := listeners s; isReady := true; playing := n;
             called := called s ++ ((λ l, (l, true)) <$> listeners s) |}
      end
  | PlayRejected =>
      match playing s with
      | O => s
      | S n =>
          {| listeners := listeners s; isReady := isReady s; playing := n;
             called := called s |}
      end
  end.

Definition run (evs : list Event) (s : State) : State := foldl step s evs.

(** [ready] and [updatesOnRender] *)
Definition ready (s : State) : bool := isReady s.
Definition updatesOnRender (s : State) : bool := true.

End VideoTextureManager.

(** ** The vocabulary of the properties *)

(** The cases of a call, each with the condition under which the source
    takes it.  There is none for the branch [Evicted]. *)
Inductive getContext_case (c : TargetCanvas) (env : Env) (m : Manager)
    : Manager * option nat * Branch → Prop :=
| case_hit g :
    contextMap m !! target c = Some g →
    getContext_case c env m
      (markContextAsUsed g (tNow env) m, Some g, CacheHit)
| case_reuse i e :
    contextMap m !! target c = None →
    list_find unused (contexts m) = Some (i, e) →
    getContext_case c env m
      (assignContextToCanvas i c (tNow env) m, Some (gl e), ReusedFree)
| case_create :
    contextMap m !! target c = None →
    list_find unused (contexts m) = None →
    (length (contexts m) < maxContexts m)%nat →
    webgl2 env = true →
    getContext_case c env m
      (assignContextToCanvas (length (contexts m)) c (tNow env)
         (createNewContext env m).1,
       Some (allocated m), CreatedNew)
| case_exhausted :
    contextMap m !! target c = None →
    list_find unused (contexts m) = None →
    (maxContexts m ≤ length (contexts m))%nat ∨ webgl2 env = false →
    findOldestUnusedContext m = None →
    getContext_case c env m (m, None, Exhausted).

(** The contexts of the pool are pairwise distinct objects that the browser
    has created and that exist in the store; a binding leads to an entry in
    use; no two targets are bound to the same context; the pool does not
    exceed its capacity. *)
Record wf (m : Manager) : Prop := {
  wf_nodup : NoDup (gl <$> contexts m);
  wf_fresh : ∀ e, e ∈ contexts m → (gl e < allocated m)%nat;
  wf_bound : ∀ c g, contextMap m !! c = Some g →
    ∃ i e, contexts m !! i = Some e ∧ gl e = g ∧ isInUse e = true;
  wf_inj : ∀ c1 c2 g,
    contextMap m !! c1 = Some g → contextMap m !! c2 = Some g → c1 = c2;
  wf_cap : (length (contexts m) ≤ maxContexts m)%nat;
  wf_store : ∀ e, e ∈ contexts m → is_Some (webgl m !! gl e);
}.

(** The free entry with the smallest [lastUsed], the first of them in the
    order of the pool when several have it. *)
Definition lru_free (l : list ContextEntry) (i : nat) (e : ContextEntry) : Prop :=
  l !! i = Some e ∧ isInUse e = false
  ∧ ∀ j e', l !! j = Some e' → isInUse e' = false →
      lastUsed e < lastUsed e' ∨ (lastUsed e = lastUsed e' ∧ (i ≤ j)%nat).

(** A caller acquires a context for each target of a list in turn; the
    result is the last state and what each call returned. *)
Fixpoint acquireAll (reqs : list (TargetCanvas * Env)) (m : Manager)
    : Manager * list (option nat) :=
  match reqs with
  | [] => (m, [])
  | (c, env) :: rest =>
      let r := getContext c env m in
      let '(m', out) := acquireAll rest (after r) in
      (m', returned r :: out)
  end.

(** A pool of capacity [N] with [k] entries, all in use, whose bindings are
    among the targets [seen]. *)
Record busy (N k : nat) (seen : list nat) (m : Manager) : Prop := {
  busy_len : length (contexts m) = k;
  busy_max : maxContexts m = N;
  busy_used : list_find unused (contexts m) = None;
  busy_alloc : allocated m = k;
  busy_keys : ∀ c, is_Some (contextMap m !! c) → c ∈ seen;
}.

(** Every entry in use is the entry of some binding. *)
Definition all_bound (m : Manager) : Prop :=
  ∀ e, e ∈ contexts m → isInUse e = true →
    ∃ c, contextMap m !! c = Some (gl e).


(** The calls other than the two that set up blending. *)
Definition keepsBlend (c : GL.Call) : bool :=
  match c with
  | GL.enableBlend | GL.blendFunc _ _ => false
  | _ => true
  end.

(** A call on the pool, or drawing that leaves the set-up of blending
    alone. *)
Definition quiet (op : Op) : Prop :=
  match op with
  | OpGl _ calls => Forall (λ call, keepsBlend call = true) calls
  | _ => True
  end.

(** The calls that a renderer has issued, as steps on the pool. *)
Definition asOps (calls : list (nat * GL.Call)) : list Op :=
  (λ call, OpGl call.1 [call.2]) <$> calls.

(** The world [w'] has the calls of [w] and after them calls on the context
    [g] only, none of which sets up blending. *)
Definition adds (g : nat) (w w' : MediaEffect.World) : Prop :=
  ∃ calls,
    MediaEffect.issued w' = MediaEffect.issued w ++ ((λ call, (g, call)) <$> calls)
    ∧ Forall (λ call, keepsBlend call = true) calls.

(** ** Scenarios *)

(** Canvases and browser answers for the scenarios below. *)
Definition canvasOf (i : nat) : TargetCanvas :=
  {| target := i; width := 300; height := 150 |}.

Definition atTime (t : Z) : Env :=
  {| webgl2 := true; tCreate := t; tNow := t |}.

Definition entryOf (g : nat) (w h : Z) (used : bool) (t : Z) : ContextEntry :=
  {| gl := g;
     canvas := {| backingWidth := w; backingHeight := h; displayNone := true |};
     isInUse := used; lastUsed := t |}.

(** Fourteen targets acquire a context at the times 1 to 14; the second
    target releases at 15 and the first at 16. *)
Definition twoReleased : list Op :=
  ((λ i, OpGetContext (canvasOf i) (atTime (Z.of_nat i + 1))) <$> seq 0 14)
  ++ [OpReleaseContext (canvasOf 1) 15; OpReleaseContext (canvasOf 0) 16].

(** The objects of a renderer, for the scenario below. *)
Definition someFx : FxCache :=
  {| fxProgram := 1; positionBuffer := 2; texCoordBuffer := 3;
     texture := 4; pattern1Texture := 5; pattern2Texture := 6 |}.

(** The target 0 acquires a context, [MediaEffect.render] draws with it, and
    the target releases it. *)
Definition renderedAndReleased : list Op :=
  [OpGetContext (canvasOf 0) (atTime 1);
   OpGl 0 (renderCalls true someFx);
   OpReleaseContext (canvasOf 0) 2].


(** * Properties of the pool *)

(** ** Entries, lists of entries *)

Section Entries.
Implicit Types (l : list ContextEntry) (e : ContextEntry) (i j : nat).

Lemma gl_alter (f : ContextEntry → ContextEntry) i l :
  (∀ e, gl (f e) = gl e) → gl <$> alter f i l = gl <$> l.
Proof.
  intros Hf. apply list_eq. intros j. rewrite !list_lookup_fmap.
  destruct (decide (i = j)) as [->|Hne].
  - rewrite list_lookup_alter_eq. destruct (l !! j); simpl; [|done].
    by rewrite Hf.
  - by rewrite list_lookup_alter_ne.
Qed.

Lemma lookup_alter_inv (f : ContextEntry → ContextEntry) i j l e' :
  alter f i l !! j = Some e' →
  (j = i ∧ ∃ e, l !! i = Some e ∧ e' = f e) ∨ (j ≠ i ∧ l !! j = Some e').
Proof.
  intros H. destruct (decide (j = i)) as [->|Hne].
  - left. split; [done|]. rewrite list_lookup_alter_eq in H.
    destruct (l !! i) as [e|]; simplify_eq/=. eauto.
  - right. split; [done|]. by rewrite list_lookup_alter_ne in H.
Qed.

Lemma elem_of_alter_gl (f : ContextEntry → ContextEntry) i l e' :
  (∀ e, gl (f e) = gl e) → e' ∈ alter f i l → ∃ e, e ∈ l ∧ gl e = gl e'.
Proof.
  intros Hf [j Hj]%list_elem_of_lookup_1.
  apply lookup_alter_inv in Hj as [[-> (e & He & ->)]|[_ Hj]].
  - exists e. split; [by eapply list_elem_of_lookup_2|by rewrite Hf].
  - exists e'. split; [by eapply list_elem_of_lookup_2|done].
Qed.

Lemma find_unused_None l e :
  list_find unused l = None → e ∈ l → isInUse e = true.
Proof.
  intros H He. apply list_find_None in H. rewrite Forall_forall in H.
  specialize (H e He). unfold unused in H. by destruct (isInUse e).
Qed.

Lemma find_unused_Some l i e :
  list_find unused l = Some (i, e) →
  l !! i = Some e ∧ isInUse e = false
  ∧ ∀ j e', (j < i)%nat → l !! j = Some e' → isInUse e' = true.
Proof.
  intros (Hi & Hu & Hmin)%list_find_Some. repeat split; [done..|].
  intros j e' Hj He'. specialize (Hmin j e' He' Hj).
  unfold unused in Hmin. by destruct (isInUse e').
Qed.

Lemma find_tracks_Some g l i e :
  list_find (tracks g) l = Some (i, e) → l !! i = Some e ∧ gl e = g.
Proof. by intros (Hi & Hg & _)%list_find_Some. Qed.

(** With pairwise distinct contexts, [find(e => e.gl === g)] gives the
    entry of [g] wherever it is. *)
Lemma find_tracks_nodup l i e :
  NoDup (gl <$> l) → l !! i = Some e →
  list_find (tracks (gl e)) l = Some (i, e).
Proof.
  intros Hnd Hi. apply list_find_Some. repeat split; [done..|].
  intros j e' Hj Hlt Hg. unfold tracks in Hg.
  assert (j = i); [|lia].
  eapply NoDup_lookup; [exact Hnd| |];
    rewrite list_lookup_fmap; [by rewrite Hj|by rewrite Hi, Hg].
Qed.

Lemma find_tracks_None g l :
  list_find (tracks g) l = None ↔ ∀ e, e ∈ l → gl e ≠ g.
Proof. rewrite list_find_None, Forall_forall. done. Qed.

Lemma filter_unused_nil l :
  list_find unused l = None →
  filter (λ p : nat * ContextEntry, unused p.2) (imap pair l) = [].
Proof.
  intros H.
  destruct (filter _ _) as [|p k] eqn:Hf; [done|exfalso].
  assert (p ∈ filter (λ p : nat * ContextEntry, unused p.2) (imap pair l))
    as [Hp Hin]%list_elem_of_filter by (rewrite Hf; left).
  apply list_elem_of_lookup_1 in Hin as [j Hj].
  rewrite list_lookup_imap in Hj.
  destruct (l !! j) as [e|] eqn:He; simplify_eq/=.
  apply list_elem_of_lookup_2 in He.
  unfold unused in Hp. by rewrite (find_unused_None l e H He) in Hp.
Qed.

Lemma used_plus_unused l :
  (length (filter (λ e, isInUse e = true) l) + length (filter unused l)
   = length l)%nat.
Proof.
  induction l as [|e l IH]; [done|].
  rewrite !filter_cons.
  destruct (decide (isInUse e = true)) as [Ht|Hf];
    destruct (decide (unused e)) as [Hu|Hn]; unfold unused in *; simpl.
  - congruence.
  - lia.
  - lia.
  - by destruct (isInUse e).
Qed.
End Entries.

(** ** The branches of [getContext] *)

Lemma findOldest_no_unused m :
  list_find unused (contexts m) = None → findOldestUnusedContext m = None.
Proof.
  intros H. unfold findOldestUnusedContext.
  by rewrite (filter_unused_nil _ H).
Qed.

Lemma createNewContext_refused env m :
  webgl2 env = false → createNewContext env m = (m, None).
Proof. intros H. unfold createNewContext. by rewrite H. Qed.


Lemma getContext_cases c env m : getContext_case c env m (getContext c env m).
Proof.
  unfold getContext.
  destruct (contextMap m !! target c) as [g|] eqn:Hmap; [by constructor|].
  destruct (list_find unused (contexts m)) as [[i e]|] eqn:Hfree;
    [by constructor|].
  pose proof (findOldest_no_unused m Hfree) as Hold.
  case_decide as Hlen.
  - destruct (webgl2 env) eqn:Hgl.
    + pose proof (case_create c env m Hmap Hfree Hlen Hgl) as H.
      unfold createNewContext in *. rewrite Hgl in *. exact H.
    + rewrite (createNewContext_refused _ _ Hgl). rewrite Hold.
      constructor; auto.
  - rewrite Hold. constructor; auto. left. lia.
Qed.

(** ** The invariant of the pool *)


Lemma wf_newManager capacity : wf (newManager capacity).
Proof.
  split; simpl.
  - constructor.
  - intros e He. by apply elem_of_nil in He.
  - intros c g H. by rewrite lookup_empty in H.
  - intros c1 c2 g H. by rewrite lookup_empty in H.
  - lia.
  - intros e He. by apply elem_of_nil in He.
Qed.

(** A binding determines its entry. *)
Lemma wf_bound_find m c g :
  wf m → contextMap m !! c = Some g →
  ∃ i e, list_find (tracks g) (contexts m) = Some (i, e)
         ∧ contexts m !! i = Some e ∧ gl e = g ∧ isInUse e = true.
Proof.
  intros Hwf Hc. destruct (wf_bound m Hwf c g Hc) as (i & e & Hi & Hg & Hu).
  exists i, e. subst g. split; [|done].
  apply find_tracks_nodup; [apply Hwf|done].
Qed.

Lemma wf_alter_keep (f : ContextEntry → ContextEntry) i m :
  (∀ e, gl (f e) = gl e) → (∀ e, isInUse (f e) = isInUse e) →
  wf m → wf (setContexts (alter f i (contexts m)) m).
Proof.
  intros Hgl Huse Hwf. split; simpl.
  - rewrite gl_alter by done. apply Hwf.
  - intros e' He'. destruct (elem_of_alter_gl f i _ e' Hgl He') as (e & He & <-).
    by apply Hwf.
  - intros c g Hc. destruct (wf_bound m Hwf c g Hc) as (j & e & Hj & Hg & Hu).
    destruct (decide (i = j)) as [->|Hne].
    + exists j, (f e). rewrite list_lookup_alter_eq, Hj. simpl.
      by rewrite Hgl, Huse.
    + exists j, e. by rewrite list_lookup_alter_ne.
  - apply Hwf.
  - rewrite length_alter. apply Hwf.
  - intros e' He'. destruct (elem_of_alter_gl f i _ e' Hgl He') as (e & He & <-).
    by apply Hwf.
Qed.

Lemma wf_glCalls g cs m : wf m → wf (glCalls g cs m).
Proof.
  intros Hwf. split; simpl; try apply Hwf.
  intros e He. apply lookup_alter_is_Some. by apply Hwf.
Qed.

Lemma wf_markContextAsUsed g now m : wf m → wf (markContextAsUsed g now m).
Proof.
  intros Hwf. unfold markContextAsUsed.
  destruct (list_find _ _) as [[i e]|]; [|done]. by apply wf_alter_keep.
Qed.

Lemma wf_updateContextSize g w h m : wf m → wf (updateContextSize g w h m).
Proof.
  intros Hwf. unfold updateContextSize.
  destruct (list_find _ _) as [[i e]|]; [|done]. by apply wf_alter_keep.
Qed.

Lemma wf_assignContextToCanvas i c now m e :
  wf m → contexts m !! i = Some e → isInUse e = false →
  contextMap m !! target c = None →
  wf (assignContextToCanvas i c now m).
Proof.
  intros Hwf Hi Hfree Hc. unfold assignContextToCanvas. rewrite Hi.
  assert (Hgl : ∀ e0, gl (assign c now e0) = gl e0) by done.
  split; simpl.
  - rewrite gl_alter by done. apply Hwf.
  - intros e' He'.
    destruct (elem_of_alter_gl _ i _ e' Hgl He') as (e0 & He0 & <-).
    by apply Hwf.
  - intros c' g Hc'. destruct (decide (target c = c')) as [<-|Hne].
    + rewrite lookup_insert_eq in Hc'. simplify_eq.
      exists i, (assign c now e). by rewrite list_lookup_alter_eq, Hi.
    + rewrite lookup_insert_ne in Hc' by done.
      destruct (wf_bound m Hwf c' g Hc') as (j & e0 & Hj & Hg & Hu).
      exists j, e0. rewrite list_lookup_alter_ne; [done|].
      intros ->. congruence.
  - assert (Hold : ∀ c', contextMap m !! c' = Some (gl e) → False).
    { intros c' Hc'.
      destruct (wf_bound m Hwf c' _ Hc') as (j & e0 & Hj & Hg & Hu).
      assert (j = i); [|congruence].
      eapply (NoDup_lookup _ j i (gl e)); [apply (wf_nodup m Hwf)|..];
        rewrite list_lookup_fmap; [rewrite Hj; simpl; by rewrite Hg|by rewrite Hi]. }
    intros c1 c2 g H1 H2.
    destruct (decide (target c = c1)) as [<-|Hne1];
      destruct (decide (target c = c2)) as [<-|Hne2]; [done|..].
    + rewrite lookup_insert_eq in H1. rewrite lookup_insert_ne in H2 by done.
      simplify_eq. by destruct (Hold c2).
    + rewrite lookup_insert_eq in H2. rewrite lookup_insert_ne in H1 by done.
      simplify_eq. by destruct (Hold c1).
    + rewrite lookup_insert_ne in H1, H2 by done.
      by apply (wf_inj m Hwf c1 c2 g).
  - rewrite length_alter. apply Hwf.
  - intros e' He'.
    destruct (elem_of_alter_gl _ i _ e' Hgl He') as (e0 & He0 & <-).
    by apply Hwf.
Qed.

Lemma wf_createNewContext env m :
  wf m → webgl2 env = true → (length (contexts m) < maxContexts m)%nat →
  let m1 := (createNewContext env m).1 in
  wf m1 ∧ contextMap m1 = contextMap m
  ∧ ∃ e, contexts m1 = contexts m ++ [e] ∧ gl e = allocated m
         ∧ isInUse e = false.
Proof.
  intros Hwf Hgl Hlen. unfold createNewContext. rewrite Hgl. simpl.
  split; [|eauto]. split; simpl.
  - rewrite fmap_app. apply NoDup_app. split; [apply Hwf|]. split.
    + intros g [e [-> He]]%list_elem_of_fmap Hg. simpl in Hg.
      apply list_elem_of_singleton in Hg.
      pose proof (wf_fresh m Hwf e He). lia.
    + apply NoDup_singleton.
  - intros e [He| ->%list_elem_of_singleton]%elem_of_app; simpl; [|lia].
    pose proof (wf_fresh m Hwf e He). lia.
  - intros c g Hc. destruct (wf_bound m Hwf c g Hc) as (j & e & Hj & Hg & Hu).
    exists j, e. split; [|done]. by apply lookup_app_l_Some.
  - apply Hwf.
  - rewrite length_app. simpl. lia.
  - intros e [He| ->%list_elem_of_singleton]%elem_of_app; simpl.
    + destruct (decide (allocated m = gl e)) as [Heq|Hne].
      * rewrite Heq, lookup_insert_eq. eauto.
      * rewrite lookup_insert_ne by done. by apply Hwf.
    + rewrite lookup_insert_eq. eauto.
Qed.

Lemma wf_getContext c env m : wf m → wf (after (getContext c env m)).
Proof.
  intros Hwf. unfold after.
  destruct (getContext_cases c env m) as [g Hc|i e Hc Hf|Hc Hf Hlen Hgl|]; simpl.
  - by apply wf_markContextAsUsed.
  - apply find_unused_Some in Hf as (Hi & Hu & _).
    by eapply wf_assignContextToCanvas.
  - destruct (wf_createNewContext env m Hwf Hgl Hlen)
      as (Hwf1 & Hmap & e & Hl & Hg & Hu).
    eapply wf_assignContextToCanvas; [done| |exact Hu|by rewrite Hmap].
    rewrite Hl. by rewrite lookup_app_r, Nat.sub_diag.
  - done.
Qed.

Lemma wf_releaseContext c now m : wf m → wf (releaseContext c now m).
Proof.
  intros Hwf. unfold releaseContext.
  destruct (contextMap m !! target c) as [g|] eqn:Hc; [|done].
  destruct (wf_bound_find m _ g Hwf Hc) as (i & e & Hfind & Hi & Hg & Hu).
  rewrite Hfind. split; simpl.
  - rewrite gl_alter by done. apply Hwf.
  - intros e' He'.
    destruct (elem_of_alter_gl (idle now) i _ e' (λ _, eq_refl) He')
      as (e0 & He0 & <-). by apply Hwf.
  - intros c' g' Hc'. destruct (decide (target c = c')) as [<-|Hne].
    + by rewrite lookup_delete_eq in Hc'.
    + rewrite lookup_delete_ne in Hc' by done.
      destruct (wf_bound m Hwf c' g' Hc') as (j & e0 & Hj & Hg' & Hu').
      exists j, e0. rewrite list_lookup_alter_ne; [done|].
      intros Heq. apply Hne.
      apply (wf_inj m Hwf (target c) c' g); [done|]. congruence.
  - intros c1 c2 g' H1 H2.
    destruct (decide (target c = c1)) as [<-|Hne1];
      [by rewrite lookup_delete_eq in H1|].
    destruct (decide (target c = c2)) as [<-|Hne2];
      [by rewrite lookup_delete_eq in H2|].
    rewrite lookup_delete_ne in H1, H2 by done.
    by apply (wf_inj m Hwf c1 c2 g').
  - rewrite length_alter. apply Hwf.
  - intros e' He'.
    destruct (elem_of_alter_gl (idle now) i _ e' (λ _, eq_refl) He')
      as (e0 & He0 & <-).
    apply lookup_alter_is_Some. by apply Hwf.
Qed.

Lemma wf_step m op : wf m → wf (step m op).
Proof.
  intros Hwf. destruct op; simpl.
  - by apply wf_getContext.
  - by apply wf_releaseContext.
  - by apply wf_updateContextSize.
  - by apply wf_glCalls.
Qed.

Lemma wf_run ops m : wf m → wf (run ops m).
Proof.
  unfold run. revert m.
  induction ops as [|op ops IH]; intros m Hwf; simpl; [done|].
  apply IH. by apply wf_step.
Qed.

(** The four branches as equations. *)
Lemma getContext_hit c env m g :
  contextMap m !! target c = Some g →
  getContext c env m = (markContextAsUsed g (tNow env) m, Some g, CacheHit).
Proof. intros H. unfold getContext. by rewrite H. Qed.

Lemma getContext_reuse c env m i e :
  contextMap m !! target c = None →
  list_find unused (contexts m) = Some (i, e) →
  getContext c env m
  = (assignContextToCanvas i c (tNow env) m, Some (gl e), ReusedFree).
Proof. intros H1 H2. unfold getContext. by rewrite H1, H2. Qed.

Lemma getContext_create c env m :
  contextMap m !! target c = None →
  list_find unused (contexts m) = None →
  (length (contexts m) < maxContexts m)%nat →
  webgl2 env = true →
  getContext c env m
  = (assignContextToCanvas (length (contexts m)) c (tNow env)
       (createNewContext env m).1,
     Some (allocated m), CreatedNew).
Proof.
  intros H1 H2 H3 H4. unfold getContext, createNewContext.
  rewrite H1, H2, H4. by rewrite decide_True by done.
Qed.

Lemma getContext_exhausted c env m :
  contextMap m !! target c = None →
  list_find unused (contexts m) = None →
  (maxContexts m ≤ length (contexts m))%nat ∨ webgl2 env = false →
  getContext c env m = (m, None, Exhausted).
Proof.
  intros H1 H2 H3. unfold getContext. rewrite H1, H2.
  pose proof (findOldest_no_unused m H2) as Hold.
  case_decide as Hlen.
  - destruct H3 as [H3|H3]; [lia|].
    rewrite (createNewContext_refused _ _ H3). by rewrite Hold.
  - by rewrite Hold.
Qed.

(** ** What [findOldestUnusedContext] computes *)


Lemma lru_free_unique l i e i' e' :
  lru_free l i e → lru_free l i' e' → i = i' ∧ e = e'.
Proof.
  intros (Hi & Hu & Hmin) (Hi' & Hu' & Hmin').
  specialize (Hmin i' e' Hi' Hu'). specialize (Hmin' i e Hi Hu).
  assert (i = i') as -> by lia. split; [done|congruence].
Qed.

Section Oldest.
Implicit Types (p x : nat * ContextEntry) (L : list (nat * ContextEntry)).

Local Abbreviation earlier := (λ p q : nat * ContextEntry, (p.1 < q.1)%nat).
Local Abbreviation free := (λ p : nat * ContextEntry, unused p.2).

Lemma indexed_sorted (l : list ContextEntry) k :
  StronglySorted earlier (filter free (imap (λ i e, ((k + i)%nat, e)) l))
  ∧ Forall (λ p, (k ≤ p.1)%nat) (filter free (imap (λ i e, ((k + i)%nat, e)) l)).
Proof.
  revert k. induction l as [|e l IH]; intros k.
  { split; constructor. }
  rewrite imap_cons.
  rewrite (imap_ext _ (λ i e0, ((S k + i)%nat, e0)))
    by (intros; simpl; f_equal; lia).
  destruct (IH (S k)) as [Hs Hf]. rewrite filter_cons.
  assert (Hk : Forall (λ p, (k ≤ p.1)%nat)
                 (filter free (imap (λ i e0, ((S k + i)%nat, e0)) l))).
  { eapply Forall_impl; [exact Hf|]. simpl. intros; lia. }
  case_decide; [|done]. split.
  - constructor; [done|]. eapply Forall_impl; [exact Hf|].
    simpl. intros; lia.
  - constructor; [simpl; lia|done].
Qed.

Lemma elem_of_indexed (l : list ContextEntry) j e :
  (j, e) ∈ filter free (imap pair l) ↔ l !! j = Some e ∧ isInUse e = false.
Proof.
  rewrite list_elem_of_filter, list_elem_of_lookup. unfold unused.
  simpl. split.
  - intros [Hu [n Hn]]. rewrite list_lookup_imap in Hn.
    destruct (l !! n) eqn:Hl; simplify_eq/=. done.
  - intros [Hj Hu]. split; [done|]. exists j.
    by rewrite list_lookup_imap, Hj.
Qed.

Lemma older_cases p x :
  (older p x = x ∧ lastUsed x.2 < lastUsed p.2)
  ∨ (older p x = p ∧ lastUsed p.2 ≤ lastUsed x.2).
Proof. unfold older. case_decide; [left|right]; split; done || lia. Qed.

(** [reduce] keeps the first of the elements with the smallest
    [lastUsed]. *)
Lemma foldl_older x L :
  ∃ pre post, x :: L = pre ++ foldl older x L :: post
    ∧ (∀ p, p ∈ pre → lastUsed (foldl older x L).2 < lastUsed p.2)
    ∧ (∀ p, p ∈ post → lastUsed (foldl older x L).2 ≤ lastUsed p.2).
Proof.
  induction L as [|y L IH] using rev_ind.
  { exists [], []. split; [done|]. split; intros p Hp; by apply elem_of_nil in Hp. }
  destruct IH as (pre & post & Heq & Hpre & Hpost).
  rewrite foldl_snoc. set (r := foldl older x L) in *.
  destruct (older_cases r y) as [[-> Hlt]|[-> Hlt]].
  - exists (x :: L), []. split; [done|]. split.
    + intros p Hp. rewrite Heq in Hp.
      apply elem_of_app in Hp as [Hp|Hp]; [specialize (Hpre p Hp); lia|].
      apply elem_of_cons in Hp as [->|Hp]; [lia|].
      specialize (Hpost p Hp). lia.
    + intros p Hp. by apply elem_of_nil in Hp.
  - exists pre, (post ++ [y]). split.
    + rewrite app_comm_cons, Heq. by rewrite <-app_assoc.
    + split; [done|]. intros p [Hp| ->%list_elem_of_singleton]%elem_of_app;
        [by apply Hpost|lia].
Qed.

Lemma findOldest_lru m i e :
  findOldestUnusedContext m = Some (i, e) → lru_free (contexts m) i e.
Proof.
  unfold findOldestUnusedContext. case_decide as Hlen; [done|].
  destruct (filter _ _) as [|x L] eqn:HL; [done|]. simpl. intros [= Hr].
  destruct (foldl_older x L) as (pre & post & Heq & Hpre & Hpost).
  rewrite Hr in *. simpl in *.
  assert (Hin : ∀ j e', (j, e') ∈ x :: L ↔
            contexts m !! j = Some e' ∧ isInUse e' = false).
  { intros j e'. rewrite <-HL. apply elem_of_indexed. }
  assert (Hsorted : StronglySorted earlier (x :: L)).
  { rewrite <-HL. apply (indexed_sorted (contexts m) 0). }
  destruct (proj1 (Hin i e)) as [Hi Hu].
  { rewrite Heq. apply elem_of_app. right. left. }
  split; [done|]. split; [done|].
  intros j e' Hj Hu'.
  pose proof (proj2 (Hin j e') (conj Hj Hu')) as Hp.
  rewrite Heq in Hp, Hsorted.
  apply elem_of_app in Hp as [Hp|Hp]; [left; apply (Hpre _ Hp)|].
  apply elem_of_cons in Hp as [Hp|Hp].
  - simplify_eq. right. split; [done|lia].
  - specialize (Hpost _ Hp). simpl in Hpost.
    apply StronglySorted_app_1_r, StronglySorted_cons in Hsorted as [Hlt _].
    rewrite Forall_forall in Hlt. specialize (Hlt _ Hp). simpl in Hlt.
    destruct (decide (lastUsed e = lastUsed e')); [right|left]; lia.
Qed.

(** It gives an entry exactly when some entry is free. *)
Lemma findOldest_is_Some m e :
  e ∈ contexts m → isInUse e = false → is_Some (findOldestUnusedContext m).
Proof.
  intros [j Hj]%list_elem_of_lookup_1 Hu.
  pose proof (proj2 (elem_of_indexed (contexts m) j e) (conj Hj Hu)) as Hin.
  unfold findOldestUnusedContext.
  destruct (filter _ _) as [|x L]; [by apply elem_of_nil in Hin|].
  rewrite decide_False by done. simpl. eauto.
Qed.
End Oldest.

(** ** What a call leaves alone *)

Lemma assignContextToCanvas_frame i c now m :
  gl <$> contexts (assignContextToCanvas i c now m) = gl <$> contexts m
  ∧ maxContexts (assignContextToCanvas i c now m) = maxContexts m
  ∧ webgl (assignContextToCanvas i c now m) = webgl m
  ∧ allocated (assignContextToCanvas i c now m) = allocated m.
Proof.
  unfold assignContextToCanvas. destruct (contexts m !! i); [|done].
  simpl. by rewrite gl_alter.
Qed.

Lemma markContextAsUsed_frame g now m :
  gl <$> contexts (markContextAsUsed g now m) = gl <$> contexts m
  ∧ maxContexts (markContextAsUsed g now m) = maxContexts m
  ∧ contextMap (markContextAsUsed g now m) = contextMap m
  ∧ webgl (markContextAsUsed g now m) = webgl m
  ∧ allocated (markContextAsUsed g now m) = allocated m.
Proof.
  unfold markContextAsUsed. destruct (list_find _ _) as [[i e]|]; [|done].
  simpl. by rewrite gl_alter.
Qed.

Lemma updateContextSize_frame g w h m :
  gl <$> contexts (updateContextSize g w h m) = gl <$> contexts m
  ∧ maxContexts (updateContextSize g w h m) = maxContexts m.
Proof.
  unfold updateContextSize. destruct (list_find _ _) as [[i e]|]; [|done].
  simpl. by rewrite gl_alter.
Qed.

Lemma releaseContext_frame c now m :
  gl <$> contexts (releaseContext c now m) = gl <$> contexts m
  ∧ maxContexts (releaseContext c now m) = maxContexts m.
Proof.
  unfold releaseContext. destruct (contextMap m !! target c); [|done].
  destruct (list_find _ _) as [[i e]|]; [|done].
  simpl. by rewrite gl_alter.
Qed.

Lemma getContext_frame c env m :
  gl <$> contexts m `prefix_of` gl <$> contexts (after (getContext c env m))
  ∧ maxContexts (after (getContext c env m)) = maxContexts m
  ∧ ∀ g, g ≠ allocated m →
      webgl (after (getContext c env m)) !! g = webgl m !! g.
Proof.
  unfold after.
  destruct (getContext_cases c env m) as [g Hc|i e Hc Hf|Hc Hf Hlen Hgl|]; simpl.
  - destruct (markContextAsUsed_frame g (tNow env) m) as (-> & -> & _ & -> & _).
    done.
  - destruct (assignContextToCanvas_frame i c (tNow env) m) as (-> & -> & -> & _).
    done.
  - destruct (assignContextToCanvas_frame (length (contexts m)) c (tNow env)
                (createNewContext env m).1) as (-> & -> & -> & _).
    unfold createNewContext. rewrite Hgl. simpl.
    split; [|split; [done|]].
    + rewrite fmap_app. by apply prefix_app_r.
    + intros g Hg. by rewrite lookup_insert_ne.
  - done.
Qed.

Lemma step_frame m op :
  gl <$> contexts m `prefix_of` gl <$> contexts (step m op)
  ∧ maxContexts (step m op) = maxContexts m.
Proof.
  destruct op as [c env|c now|g w h|g cs]; simpl.
  - destruct (getContext_frame c env m) as (? & ? & _). done.
  - destruct (releaseContext_frame c now m) as [-> ->]. done.
  - destruct (updateContextSize_frame g w h m) as [-> ->]. done.
  - done.
Qed.

Lemma maxContexts_run ops m : maxContexts (run ops m) = maxContexts m.
Proof.
  unfold run. revert m. induction ops as [|op ops IH]; intros m; [done|].
  simpl. rewrite IH. apply step_frame.
Qed.

(** ** The claims *)


Lemma getContext_first_free c env m e0 :
  contextMap m !! target c = None → e0 ∈ contexts m → isInUse e0 = false →
  ∃ i e,
    contexts m !! i = Some e ∧ isInUse e = false
    ∧ (∀ j e', (j < i)%nat → contexts m !! j = Some e' → isInUse e' = true)
    ∧ getContext c env m
      = (assignContextToCanvas i c (tNow env) m, Some (gl e), ReusedFree)
    ∧ contexts (after (getContext c env m)) !! i = Some (assign c (tNow env) e)
    ∧ contextMap (after (getContext c env m)) !! target c = Some (gl e).
Proof.
  intros Hc He0 Hu0.
  destruct (list_find_elem_of unused (contexts m) e0 He0 Hu0) as [[i e] Hf].
  pose proof (find_unused_Some _ _ _ Hf) as (Hi & Hu & Hmin).
  exists i, e. rewrite (getContext_reuse c env m i e Hc Hf).
  repeat split; try done; unfold after, assignContextToCanvas; rewrite Hi; simpl.
  - by rewrite list_lookup_alter_eq, Hi.
  - by rewrite lookup_insert_eq.
Qed.

(** C1 (the code at the failing input).  After [twoReleased] the pool is at
    capacity with two free entries.  The free entry with the smallest
    [lastUsed] is the second one (context 1, released at 15): it is the
    entry that [findOldestUnusedContext] selects.  Yet [getContext] on a new
    target returns context 0, the entry released last (at 16), from the
    branch of [find] that comes before the call of
    [findOldestUnusedContext]. *)
Lemma getContext_not_lru :
  let m := run twoReleased newWebGLContextManager in
  let r := getContext (canvasOf 99) (atTime 17) m in
  length (contexts m) = maxContexts m
  ∧ contextMap m !! target (canvasOf 99) = None
  ∧ lru_free (contexts m) 1 (entryOf 1 300 150 false 15)
  ∧ contexts m !! 0%nat = Some (entryOf 0 300 150 false 16)
  ∧ returned r = Some 0%nat ∧ branch r = ReusedFree.
Proof.
  split; [vm_compute; reflexivity|]. split; [vm_compute; reflexivity|].
  split; [apply findOldest_lru; vm_compute; reflexivity|].
  split; [vm_compute; reflexivity|].
  split; vm_compute; reflexivity.
Qed.

(** C10.  In every state, and so after every sequence of calls, a call of
    [getContext] never ends in the eviction branch.  When the call reaches
    [findOldestUnusedContext] (the target has no binding, [find] has found
    no free entry, and no entry has been created because the pool is at
    capacity or the browser gave no context), every entry is in use,
    [findOldestUnusedContext] gives [null], and the call returns [null] and
    leaves the state as it is.  No call changes the state of a context that
    existed before it, so [cleanupContext] has not run. *)
Theorem eviction_never_runs c env m :
  let r := getContext c env m in
  branch r ≠ Evicted
  ∧ (contextMap m !! target c = None →
     list_find unused (contexts m) = None →
     (maxContexts m ≤ length (contexts m))%nat ∨ webgl2 env = false →
     (∀ e, e ∈ contexts m → isInUse e = true)
     ∧ findOldestUnusedContext m = None
     ∧ r = (m, None, Exhausted))
  ∧ (∀ g, g ≠ allocated m → webgl (after r) !! g = webgl m !! g).
Proof.
  simpl. split; [|split].
  - by destruct (getContext_cases c env m).
  - intros Hc Hf Hfull. split; [|split].
    + intros e He. by eapply find_unused_None.
    + by apply findOldest_no_unused.
    + by apply getContext_exhausted.
  - apply getContext_frame.
Qed.

(** C3.  After every sequence of calls on a new pool, the numbers of
    [getStats] satisfy [inUse + free = total] and [total <= 14], and the
    next call, whatever it is, keeps every entry of the pool at its place:
    the contexts of the pool before the call are a prefix of those after
    it. *)
Theorem getStats_invariant (ops : list Op) :
  let m := run ops newWebGLContextManager in
  (inUse (getStats m) + free (getStats m) = total (getStats m))%nat
  ∧ (total (getStats m) ≤ 14)%nat
  ∧ ∀ op, gl <$> contexts m `prefix_of` gl <$> contexts (step m op).
Proof.
  simpl. split; [apply used_plus_unused|]. split.
  - pose proof (wf_cap _ (wf_run ops _ (wf_newManager 14))) as H.
    by rewrite maxContexts_run in H.
  - intros op. apply step_frame.
Qed.

(** C4.  After every sequence of calls on a new pool: a target has at most
    one binding; no two targets are bound to the context of the same entry;
    and a binding leads to exactly one entry of the pool, which is in
    use. *)
Theorem bindings_invariant (capacity : nat) (ops : list Op) :
  let m := run ops (newManager capacity) in
  (∀ c g1 g2,
     contextMap m !! c = Some g1 → contextMap m !! c = Some g2 → g1 = g2)
  ∧ (∀ i e c1 c2,
       contexts m !! i = Some e →
       contextMap m !! c1 = Some (gl e) → contextMap m !! c2 = Some (gl e) →
       c1 = c2)
  ∧ (∀ c g, contextMap m !! c = Some g →
       ∃ i e, contexts m !! i = Some e ∧ gl e = g ∧ isInUse e = true
         ∧ ∀ j e', contexts m !! j = Some e' → gl e' = g → j = i).
Proof.
  simpl. pose proof (wf_run ops _ (wf_newManager capacity)) as Hwf.
  set (m := run ops (newManager capacity)) in *.
  split; [|split].
  - intros c g1 g2 H1 H2. congruence.
  - intros i e c1 c2 _. apply Hwf.
  - intros c g Hc. destruct (wf_bound m Hwf c g Hc) as (i & e & Hi & Hg & Hu).
    exists i, e. repeat split; [done..|].
    intros j e' Hj Hg'.
    eapply (NoDup_lookup _ j i g); [apply (wf_nodup m Hwf)|..];
      rewrite list_lookup_fmap; [rewrite Hj|rewrite Hi]; simpl; congruence.
Qed.

Lemma markContextAsUsed_bound m c g now :
  wf m → contextMap m !! c = Some g →
  ∃ i e, contexts m !! i = Some e ∧ gl e = g
    ∧ markContextAsUsed g now m
      = setContexts (alter (touch now) i (contexts m)) m.
Proof.
  intros Hwf Hc.
  destruct (wf_bound_find m c g Hwf Hc) as (i & e & Hf & Hi & Hg & _).
  exists i, e. unfold markContextAsUsed. by rewrite Hf.
Qed.

(** C7.  In a state reached by a sequence of calls on a new pool, for a
    target that has a binding, two calls of [getContext] in a row both
    return the bound context, both leave [total] as it was, and each sets
    [lastUsed] of the bound entry to the time of the call and changes
    nothing else in the entry. *)
Theorem getContext_twice capacity ops c g env1 env2 :
  let m := run ops (newManager capacity) in
  contextMap m !! target c = Some g →
  let r1 := getContext c env1 m in
  let r2 := getContext c env2 (after r1) in
  returned r1 = Some g ∧ returned r2 = Some g
  ∧ branch r1 = CacheHit ∧ branch r2 = CacheHit
  ∧ total (getStats (after r1)) = total (getStats m)
  ∧ total (getStats (after r2)) = total (getStats m)
  ∧ ∃ i e, contexts m !! i = Some e ∧ gl e = g
      ∧ contexts (after r1) !! i = Some (touch (tNow env1) e)
      ∧ lastUsed (touch (tNow env1) e) = tNow env1
      ∧ contexts (after r2) !! i = Some (touch (tNow env2) e)
      ∧ lastUsed (touch (tNow env2) e) = tNow env2.
Proof.
  intros m Hc.
  assert (Hwf : wf m) by apply wf_run, wf_newManager.
  rewrite (getContext_hit c env1 m g Hc). unfold after, returned, branch.
  cbn [fst snd].
  destruct (markContextAsUsed_bound m _ g (tNow env1) Hwf Hc)
    as (i & e & Hi & Hg & Hm1).
  pose proof (wf_markContextAsUsed g (tNow env1) m Hwf) as Hwf1.
  set (m1 := markContextAsUsed g (tNow env1) m) in *.
  assert (Hc1 : contextMap m1 !! target c = Some g) by (by rewrite Hm1).
  assert (Hi1 : contexts m1 !! i = Some (touch (tNow env1) e)).
  { rewrite Hm1. simpl. by rewrite list_lookup_alter_eq, Hi. }
  rewrite (getContext_hit c env2 m1 g Hc1). cbn [fst snd].
  assert (Hm2 : markContextAsUsed g (tNow env2) m1
                = setContexts (alter (touch (tNow env2)) i (contexts m1)) m1).
  { unfold markContextAsUsed.
    pose proof (find_tracks_nodup _ _ _ (wf_nodup m1 Hwf1) Hi1) as Hf.
    simpl in Hf. rewrite Hg in Hf. by rewrite Hf. }
  repeat split; [| |exists i, e; repeat split; try done].
  - rewrite Hm1. simpl. by rewrite length_alter.
  - rewrite Hm2, Hm1. simpl. by rewrite !length_alter.
  - rewrite Hm2. simpl. by rewrite list_lookup_alter_eq, Hi1.
Qed.

Lemma getContext_twice_witness :
  let m := run [OpGetContext (canvasOf 5) (atTime 1)] newWebGLContextManager in
  contextMap m !! target (canvasOf 5) = Some 0%nat
  ∧ returned (getContext (canvasOf 5) (atTime 2) m) = Some 0%nat
  ∧ returned (getContext (canvasOf 5) (atTime 3)
                (after (getContext (canvasOf 5) (atTime 2) m))) = Some 0%nat.
Proof.
  assert (H : contextMap
                (run [OpGetContext (canvasOf 5) (atTime 1)] newWebGLContextManager)
              !! target (canvasOf 5) = Some 0%nat) by (vm_compute; reflexivity).
  split; [exact H|].
  destruct (getContext_twice 14 [OpGetContext (canvasOf 5) (atTime 1)]
              (canvasOf 5) 0%nat (atTime 2) (atTime 3) H) as (H1 & H2 & _).
  split; [exact H1|exact H2].
Defined.

(** C8.  [releaseContext] on a target without a binding returns the state
    it was given.  In a state reached by a sequence of calls on a new pool,
    [releaseContext] on a bound target changes exactly one entry, the one
    of the bound context: the entry is no longer in use and its [lastUsed]
    is the time of the release.  The colour buffer of that context is
    cleared to transparent, the other contexts are as before, and the
    binding of the target, and no other, is removed. *)
Theorem releaseContext_spec c now :
  (∀ m, contextMap m !! target c = None → releaseContext c now m = m)
  ∧ (∀ capacity ops g,
       let m := run ops (newManager capacity) in
       let m' := releaseContext c now m in
       contextMap m !! target c = Some g →
       ∃ i e e' st',
         contexts m !! i = Some e ∧ gl e = g
         ∧ contexts m' !! i = Some e'
         ∧ gl e' = g ∧ canvas e' = canvas e
         ∧ isInUse e' = false ∧ lastUsed e' = now
         ∧ (∀ j, j ≠ i → contexts m' !! j = contexts m !! j)
         ∧ webgl m' !! g = Some st'
         ∧ GL.colorBuffer st' = GL.Uniform GL.transparent
         ∧ (∀ g', g' ≠ g → webgl m' !! g' = webgl m !! g')
         ∧ contextMap m' = delete (target c) (contextMap m)).
Proof.
  split.
  - intros m Hc. unfold releaseContext. by rewrite Hc.
  - intros capacity ops g m m' Hc.
    assert (Hwf : wf m) by apply wf_run, wf_newManager.
    destruct (wf_bound_find m _ g Hwf Hc) as (i & e & Hf & Hi & Hg & _).
    destruct (wf_store m Hwf e) as [st Hst];
      [by eapply list_elem_of_lookup_2|]. rewrite Hg in Hst.
    exists i, e, (idle now e), (GL.run [GL.clearColor 0 0 0 0; GL.clear] st).
    subst m'. unfold releaseContext. rewrite Hc, Hf. simpl.
    repeat split; try done.
    + by rewrite list_lookup_alter_eq, Hi.
    + intros j Hj. by rewrite list_lookup_alter_ne.
    + by rewrite lookup_alter_eq, Hst.
    + by destruct st.
    + intros g' Hg'. by rewrite lookup_alter_ne.
Qed.

(** C9.  For a context that no entry of the pool holds, [updateContextSize]
    returns the state it was given, and [renderToCanvas] returns without an
    exception and leaves the drawing of the visible canvas as it was
    (the method has no access to the fields of the pool other than to read
    them). *)
Theorem unknown_context_is_noop g m :
  (∀ e, e ∈ contexts m → gl e ≠ g) →
  (∀ w h, updateContextSize g w h m = m)
  ∧ (∀ targetCanvas context2d,
       renderToCanvas g targetCanvas context2d m = Returned context2d).
Proof.
  intros Hg. apply find_tracks_None in Hg. split.
  - intros w h. unfold updateContextSize. by rewrite Hg.
  - intros t [drawn|]; unfold renderToCanvas; [by rewrite Hg|done].
Qed.

(** For comparison, with the context of an entry [renderToCanvas] clears
    the visible canvas and draws the backing canvas on it. *)
Example renderToCanvas_tracked :
  renderToCanvas 0 (canvasOf 5) (Some [])
    (run [OpGetContext (canvasOf 5) (atTime 1)] newWebGLContextManager)
  = Returned (Some [clearRect 0 0 300 150;
                    drawImage {| backingWidth := 300; backingHeight := 150;
                                 displayNone := true |}
                      (Some (GL.Uniform GL.transparent)) 0 0]).
Proof. vm_compute. reflexivity. Qed.

Lemma unknown_context_is_noop_witness :
  let m := run [OpGetContext (canvasOf 5) (atTime 1)] newWebGLContextManager in
  (∀ e, e ∈ contexts m → gl e ≠ 7%nat)
  ∧ updateContextSize 7 640 480 m = m
  ∧ renderToCanvas 7 (canvasOf 5) (Some [clearRect 0 0 300 150]) m
    = Returned (Some [clearRect 0 0 300 150]).
Proof.
  assert (H : ∀ e,
    e ∈ contexts (run [OpGetContext (canvasOf 5) (atTime 1)] newWebGLContextManager) →
    gl e ≠ 7%nat).
  { apply find_tracks_None. vm_compute. reflexivity. }
  split; [exact H|].
  destruct (unknown_context_is_noop 7
              (run [OpGetContext (canvasOf 5) (atTime 1)] newWebGLContextManager) H)
    as [H1 H2].
  split; [apply H1|apply H2].
Defined.

(** *** Filling the pool *)


Lemma busy_newManager N : busy N 0 [] (newManager N).
Proof.
  split; try done. simpl. intros c [g Hg]. by rewrite lookup_empty in Hg.
Qed.

Lemma busy_unbound N k seen m c :
  busy N k seen m → target c ∉ seen → contextMap m !! target c = None.
Proof.
  intros Hb Hc. destruct (contextMap m !! target c) eqn:H; [|done].
  destruct Hc. apply (busy_keys _ _ _ _ Hb). by rewrite H.
Qed.

Lemma busy_getContext N k seen m c env :
  busy N k seen m → (k < N)%nat → target c ∉ seen → webgl2 env = true →
  returned (getContext c env m) = Some k
  ∧ branch (getContext c env m) = CreatedNew
  ∧ busy N (S k) (target c :: seen) (after (getContext c env m)).
Proof.
  intros Hb Hk Hc Hgl. pose proof (busy_unbound _ _ _ _ _ Hb Hc) as Hmap.
  destruct Hb as [Hlen Hmax Hused Halloc Hkeys].
  rewrite (getContext_create c env m Hmap Hused) by (done || lia).
  unfold returned, branch, after. cbn [fst snd].
  split; [by rewrite Halloc|]. split; [done|].
  unfold createNewContext. rewrite Hgl. cbn [fst].
  unfold assignContextToCanvas. cbn [contexts].
  rewrite lookup_app_r, Nat.sub_diag by done. simpl.
  split; simpl.
  - rewrite length_alter, length_app. simpl. lia.
  - done.
  - apply list_find_None, Forall_lookup. intros j e' Hj Hu.
    unfold unused in Hu.
    apply lookup_alter_inv in Hj as [[_ (e & _ & ->)]|[Hne Hj]]; [done|].
    apply lookup_app_Some in Hj as [Hj|[Hge Hj]].
    + apply list_elem_of_lookup_2 in Hj.
      by rewrite (find_unused_None _ _ Hused Hj) in Hu.
    + destruct (j - length (contexts m))%nat eqn:Hd; [lia|done].
  - by rewrite Halloc.
  - intros c' Hc'. destruct (decide (target c = c')) as [<-|Hne]; [left|].
    rewrite lookup_insert_ne in Hc' by done. right. by apply Hkeys.
Qed.

Lemma busy_full N seen m c env :
  busy N N seen m → target c ∉ seen →
  getContext c env m = (m, None, Exhausted).
Proof.
  intros Hb Hc. apply getContext_exhausted.
  - by eapply busy_unbound.
  - apply Hb.
  - left. rewrite (busy_len _ _ _ _ Hb), (busy_max _ _ _ _ Hb). done.
Qed.

Lemma acquireAll_busy N reqs : ∀ k seen m,
  busy N k seen m → (k + length reqs ≤ N)%nat →
  NoDup (target ∘ fst <$> reqs) →
  (∀ r, r ∈ reqs → target r.1 ∉ seen) →
  Forall (λ r, webgl2 r.2 = true) reqs →
  (acquireAll reqs m).2 = Some <$> seq k (length reqs)
  ∧ busy N (k + length reqs) (reverse (target ∘ fst <$> reqs) ++ seen)
      (acquireAll reqs m).1.
Proof.
  induction reqs as [|[c env] reqs IH]; intros k seen m Hb Hk Hnd Hnew Hgl.
  { simpl. by rewrite Nat.add_0_r. }
  rewrite fmap_cons in Hnd. apply NoDup_cons in Hnd as [Hc Hnd].
  apply Forall_cons in Hgl as [Hgl1 Hgl].
  destruct (busy_getContext N k seen m c env Hb) as (Hr & _ & Hb');
    [simpl in Hk; lia|apply (Hnew (c, env)); left|done|].
  simpl. specialize (IH (S k) (target c :: seen) (after (getContext c env m))).
  destruct (acquireAll reqs (after (getContext c env m))) as [m' out].
  destruct IH as [Hout Hb'']; [done|simpl in Hk; lia|done| |done|].
  { intros r Hin [Heq|Hseen]%elem_of_cons.
    - apply Hc. apply list_elem_of_fmap. exists r. done.
    - apply (Hnew r); [by right|done]. }
  simpl in *. split; [by rewrite Hr, Hout|].
  rewrite reverse_cons, <-app_assoc. simpl.
  by replace (k + S (length reqs))%nat with (S k + length reqs)%nat by lia.
Qed.

(** C6.  For every capacity [N]: when [N] pairwise distinct targets acquire
    a context from a new pool one after the other, and the browser gives a
    context each time, every call returns a context, the [N] contexts are
    pairwise distinct, and after them [getContext] on any further target
    returns [null] in the branch [Exhausted] and leaves the state as it
    is. *)
Theorem fill_then_exhausted N (reqs : list (TargetCanvas * Env)) :
  length reqs = N →
  NoDup (target ∘ fst <$> reqs) →
  Forall (λ r, webgl2 r.2 = true) reqs →
  let m := (acquireAll reqs (newManager N)).1 in
  let out := (acquireAll reqs (newManager N)).2 in
  (∃ gs, out = Some <$> gs ∧ length gs = N ∧ NoDup gs)
  ∧ ∀ c env, target c ∉ (target ∘ fst <$> reqs) →
      getContext c env m = (m, None, Exhausted).
Proof.
  intros Hlen Hnd Hgl m out.
  destruct (acquireAll_busy N reqs 0 [] (newManager N)) as [Hout Hb];
    [apply busy_newManager|simpl; lia|done| |done|].
  { intros r _ H. by apply elem_of_nil in H. }
  simpl in Hb. rewrite Hlen in Hb. split.
  - exists (seq 0 N). subst out. rewrite Hout, Hlen.
    split; [done|]. split; [apply length_seq|apply NoDup_seq].
  - intros c env Hc. eapply busy_full; [exact Hb|].
    rewrite app_nil_r. by rewrite elem_of_reverse.
Qed.

Lemma fill_then_exhausted_witness :
  let reqs := [(canvasOf 10, atTime 1); (canvasOf 11, atTime 2);
               (canvasOf 12, atTime 3)] in
  (acquireAll reqs (newManager 3)).2 = [Some 0; Some 1; Some 2]%nat
  ∧ returned (getContext (canvasOf 13) (atTime 4)
                (acquireAll reqs (newManager 3)).1) = None.
Proof.
  destruct (fill_then_exhausted 3
              [(canvasOf 10, atTime 1); (canvasOf 11, atTime 2);
               (canvasOf 12, atTime 3)]) as [_ Hfull].
  - reflexivity.
  - compute_done.
  - repeat constructor.
  - split; [vm_compute; reflexivity|].
    rewrite (Hfull (canvasOf 13) (atTime 4)); [reflexivity|].
    compute_done.
Defined.

(** *** A pool of capacity two *)

(** Evaluate the call [getContext c env m] of the goal on its own, with the
    equation of its branch, and put the result in its place. *)
Ltac known_call c env tac :=
  match goal with
  | |- context [getContext c env ?m] =>
      let E := fresh "E" in
      eassert (E : getContext c env m = (_, _, _));
      [ tac; unfold createNewContext, assignContextToCanvas; simpl; reflexivity
      | rewrite E; clear E; cbn [after returned branch fst snd] ]
  end.

(** C5.  Capacity two, three pairwise distinct targets [A], [B], [C], the
    browser giving a context whenever asked.  [getContext A] returns a
    context (total 1, in use 1, free 0); [getContext B] returns another one
    (2, 2, 0); [getContext C] returns [null] in the branch [Exhausted];
    [releaseContext A] leaves 1 in use and 1 free; [getContext C] now
    returns the context [A] had, from the free entry, and the total is
    still 2; [getContext A] finds no binding for [A] and returns [null]
    in the branch [Exhausted], [B] and [C] holding the two entries. *)
Theorem scenario_capacity_two
    (A B C : TargetCanvas) (eA eB eC eC' eA' : Env) (tR : Z) :
  target A ≠ target B → target A ≠ target C → target B ≠ target C →
  webgl2 eA = true → webgl2 eB = true →
  let r1 := getContext A eA (newManager 2) in
  let r2 := getContext B eB (after r1) in
  let r3 := getContext C eC (after r2) in
  let m4 := releaseContext A tR (after r3) in
  let r5 := getContext C eC' m4 in
  let r6 := getContext A eA' (after r5) in
  returned r1 = Some 0%nat
  ∧ getStats (after r1) = {| total := 1; inUse := 1; free := 0 |}
  ∧ returned r2 = Some 1%nat
  ∧ getStats (after r2) = {| total := 2; inUse := 2; free := 0 |}
  ∧ returned r3 = None ∧ branch r3 = Exhausted
  ∧ getStats m4 = {| total := 2; inUse := 1; free := 1 |}
  ∧ returned r5 = Some 0%nat ∧ branch r5 = ReusedFree
  ∧ getStats (after r5) = {| total := 2; inUse := 2; free := 0 |}
  ∧ contextMap (after r5) !! target C = Some 0%nat
  ∧ contextMap (after r5) !! target A = None
  ∧ contextMap (after r5) !! target B = Some 1%nat
  ∧ returned r6 = None ∧ branch r6 = Exhausted.
Proof.
  intros HAB HAC HBC HeA HeB r1 r2 r3 m4 r5 r6.
  subst r1 r2 r3 m4 r5 r6.
  known_call A eA ltac:(rewrite getContext_create;
    [unfold createNewContext; rewrite HeA|done..|simpl; lia|done]).
  known_call B eB ltac:(rewrite getContext_create;
    [unfold createNewContext; rewrite HeB
    |by simplify_map_eq|done|simpl; lia|done]).
  known_call C eC ltac:(rewrite getContext_exhausted;
    [|by simplify_map_eq|done|left; simpl; lia]).
  match goal with
  | |- context [releaseContext A tR ?m] =>
      let E := fresh "E" in
      eassert (E : releaseContext A tR m = _);
      [ unfold releaseContext; simpl;
        rewrite lookup_insert_ne, lookup_insert_eq by done; simpl; reflexivity
      | rewrite E; clear E ]
  end.
  known_call C eC' ltac:(erewrite getContext_reuse;
    [|simpl; by simplify_map_eq|simpl; reflexivity]).
  known_call A eA' ltac:(rewrite getContext_exhausted;
    [|simpl; by simplify_map_eq|done|left; simpl; lia]).
  simpl. repeat split; try done; by simplify_map_eq.
Qed.

Lemma scenario_capacity_two_witness :
  let A := canvasOf 20 in
  let B := canvasOf 21 in
  let C := canvasOf 22 in
  let r1 := getContext A (atTime 1) (newManager 2) in
  let r2 := getContext B (atTime 2) (after r1) in
  let r3 := getContext C (atTime 3) (after r2) in
  let m4 := releaseContext A 4 (after r3) in
  let r5 := getContext C (atTime 5) m4 in
  let r6 := getContext A (atTime 6) (after r5) in
  target A ≠ target B ∧ target A ≠ target C ∧ target B ≠ target C
  ∧ returned r1 = Some 0%nat ∧ returned r2 = Some 1%nat
  ∧ returned r3 = None ∧ returned r5 = Some 0%nat ∧ returned r6 = None.
Proof.
  assert (HAB : target (canvasOf 20) ≠ target (canvasOf 21)) by (simpl; lia).
  assert (HAC : target (canvasOf 20) ≠ target (canvasOf 22)) by (simpl; lia).
  assert (HBC : target (canvasOf 21) ≠ target (canvasOf 22)) by (simpl; lia).
  pose proof (scenario_capacity_two (canvasOf 20) (canvasOf 21) (canvasOf 22)
                (atTime 1) (atTime 2) (atTime 3) (atTime 5) (atTime 6) 4
                HAB HAC HBC eq_refl eq_refl)
    as (H1 & _ & H2 & _ & H3 & _ & _ & H5 & _ & _ & _ & _ & _ & H6 & _).
  repeat split; assumption.
Defined.

(** *** The state of a context that changes hands *)

Lemma getContext_reuse_keeps_webgl c env m :
  branch (getContext c env m) = ReusedFree →
  webgl (after (getContext c env m)) = webgl m.
Proof.
  destruct (getContext_cases c env m) as [g Hc|i e Hc Hf|Hc Hf Hlen Hgl|];
    try done.
  intros _. apply assignContextToCanvas_frame.
Qed.


(** C2 (the code at the failing input).  After [renderedAndReleased], the
    target 1, which has never had a context, calls [getContext].  The call
    returns context 0 from the free entry that served target 0.  The
    program, the array buffer and the textures of the three units that the
    renderer of target 0 bound are still bound: [cleanupContext] has not
    run.  Only the colour buffer is transparent, cleared by
    [releaseContext]. *)
Theorem reuse_hands_out_bound_state :
  let m := run renderedAndReleased newWebGLContextManager in
  let r := getContext (canvasOf 1) (atTime 3) m in
  contextMap m !! target (canvasOf 1) = None
  ∧ returned r = Some 0%nat ∧ branch r = ReusedFree
  ∧ contextMap (after r) !! target (canvasOf 1) = Some 0%nat
  ∧ ∃ st, webgl (after r) !! 0%nat = Some st
      ∧ GL.program st = Some 1%nat
      ∧ GL.arrayBuffer st = Some 3%nat
      ∧ GL.textures st !! 0%nat = Some 4%nat
      ∧ GL.textures st !! 1%nat = Some 5%nat
      ∧ GL.textures st !! 2%nat = Some 6%nat
      ∧ GL.colorBuffer st = GL.Uniform GL.transparent
      ∧ ¬ GL.unbound st.
Proof.
  split; [vm_compute; reflexivity|]. split; [vm_compute; reflexivity|].
  split; [vm_compute; reflexivity|]. split; [vm_compute; reflexivity|].
  destruct (webgl (after (getContext (canvasOf 1) (atTime 3)
              (run renderedAndReleased newWebGLContextManager))) !! 0%nat)
    as [st|] eqn:Hst; [|by vm_compute in Hst].
  exists st. split; [done|].
  assert (Hp : GL.program st = Some 1%nat).
  { vm_compute in Hst. by injection Hst as <-. }
  split; [done|]. split; [vm_compute in Hst; by injection Hst as <-|].
  split; [vm_compute in Hst; by injection Hst as <-|].
  split; [vm_compute in Hst; by injection Hst as <-|].
  split; [vm_compute in Hst; by injection Hst as <-|].
  split; [vm_compute in Hst; by injection Hst as <-|].
  intros (Hprog & _). congruence.
Qed.

(** * Further properties of the pool *)

(** ** Counting entries *)

Lemma length_filter_alter (P : ContextEntry → Prop) `{!∀ e, Decision (P e)}
    (f : ContextEntry → ContextEntry) i l e :
  l !! i = Some e →
  (length (filter P (alter f i l)) + (if decide (P e) then 1 else 0)
   = length (filter P l) + (if decide (P (f e)) then 1 else 0))%nat.
Proof.
  revert i. induction l as [|x l IH]; intros [|i] Hi; simplify_eq/=.
  - rewrite !filter_cons. repeat case_decide; simpl; lia.
  - specialize (IH i Hi). rewrite !filter_cons.
    change (list_alter f i l) with (alter f i l).
    destruct (decide (P x)); simpl; lia.
Qed.

Lemma getStats_alter_keep (f : ContextEntry → ContextEntry) i m :
  (∀ e, isInUse (f e) = isInUse e) →
  getStats (setContexts (alter f i (contexts m)) m) = getStats m.
Proof.
  intros Hf. unfold getStats. simpl. rewrite length_alter.
  destruct (contexts m !! i) as [e|] eqn:Hi.
  - pose proof (length_filter_alter (λ e, isInUse e = true) f i _ e Hi) as H1.
    pose proof (length_filter_alter unused f i _ e Hi) as H2.
    pose proof (Hf e) as Hfe.
    f_equal; repeat case_decide; unfold unused in *; first [lia|congruence].
  - assert (alter f i (contexts m) = contexts m) as ->; [|done].
    apply list_eq. intros j. destruct (decide (i = j)) as [->|Hne].
    + by rewrite list_lookup_alter_eq, Hi.
    + by rewrite list_lookup_alter_ne.
Qed.

(** X1.  [findOldestUnusedContext] gives [null] exactly when every entry is
    in use; otherwise it gives the free entry with the smallest [lastUsed],
    the first such entry in the order of the pool. *)
Theorem findOldestUnusedContext_spec m :
  match findOldestUnusedContext m with
  | None => ∀ e, e ∈ contexts m → isInUse e = true
  | Some (i, e) => lru_free (contexts m) i e
  end.
Proof.
  destruct (findOldestUnusedContext m) as [[i e]|] eqn:Hold.
  - by apply findOldest_lru.
  - intros e He. destruct (isInUse e) eqn:Hu; [done|].
    destruct (findOldest_is_Some m e He Hu) as [p Hp]. congruence.
Qed.

(** X2.  What a call of [getContext] does to the numbers of [getStats], in
    every state: a cache hit and a failed call leave them as they are; the
    reuse of a free entry moves one entry from free to in use; a creation
    adds one entry, in use. *)
Theorem getContext_getStats c env m :
  let r := getContext c env m in
  let s := getStats m in
  let s' := getStats (after r) in
  match branch r with
  | CacheHit | Exhausted => s' = s
  | ReusedFree =>
      total s' = total s ∧ inUse s' = S (inUse s) ∧ S (free s') = free s
  | CreatedNew =>
      total s' = S (total s) ∧ inUse s' = S (inUse s) ∧ free s' = free s
  | Evicted => False
  end.
Proof.
  unfold after, branch.
  destruct (getContext_cases c env m) as [g Hc|i e Hc Hf|Hc Hf Hlen Hgl|];
    cbn [fst snd].
  - unfold markContextAsUsed. destruct (list_find _ _) as [[i e]|]; [|done].
    by apply getStats_alter_keep.
  - apply find_unused_Some in Hf as (Hi & Hu & _).
    unfold assignContextToCanvas. rewrite Hi. unfold getStats. simpl.
    rewrite length_alter.
    pose proof (length_filter_alter (λ e, isInUse e = true)
                  (assign c (tNow env)) i _ e Hi) as H1.
    pose proof (length_filter_alter unused
                  (assign c (tNow env)) i _ e Hi) as H2.
    simpl in H1, H2.
    repeat case_decide; unfold unused in *; simpl in *; first [lia|congruence].
  - unfold createNewContext. rewrite Hgl. cbn [fst].
    unfold assignContextToCanvas. cbn [contexts].
    rewrite lookup_app_r, Nat.sub_diag by done. unfold getStats.
    cbn [lookup list_lookup contexts setContexts setContextMap
         total inUse free].
    match goal with
    | |- context [alter _ _ (contexts m ++ [?x])] => set (entry := x)
    end.
    assert (Hi : (contexts m ++ [entry]) !! length (contexts m) = Some entry)
      by (by rewrite lookup_app_r, Nat.sub_diag).
    pose proof (length_filter_alter (λ e, isInUse e = true)
                  (assign c (tNow env)) _ _ entry Hi) as H1.
    pose proof (length_filter_alter unused
                  (assign c (tNow env)) _ _ entry Hi) as H2.
    rewrite filter_app, length_app, filter_cons, filter_nil in H1, H2.
    rewrite length_alter, length_app. simpl in H1, H2 |- *.
    repeat case_decide; unfold unused in *; simpl in *; first [lia|congruence].
  - done.
Qed.

(** X3.  What [releaseContext] does to the numbers of [getStats], in a state
    reached by a sequence of calls on a new pool: for a target without a
    binding nothing; for a bound target one entry moves from in use to
    free. *)
Theorem releaseContext_getStats capacity ops c now :
  let m := run ops (newManager capacity) in
  let s := getStats m in
  let s' := getStats (releaseContext c now m) in
  match contextMap m !! target c with
  | None => s' = s
  | Some _ =>
      total s' = total s ∧ S (inUse s') = inUse s ∧ free s' = S (free s)
  end.
Proof.
  intros m. simpl.
  assert (Hwf : wf m) by apply wf_run, wf_newManager.
  unfold releaseContext.
  destruct (contextMap m !! target c) as [g|] eqn:Hc; [|done].
  destruct (wf_bound_find m _ g Hwf Hc) as (i & e & Hf & Hi & Hg & Hu).
  rewrite Hf. unfold getStats. simpl. rewrite length_alter.
  pose proof (length_filter_alter (λ e, isInUse e = true) (idle now) i _ e Hi)
    as H1.
  pose proof (length_filter_alter unused (idle now) i _ e Hi) as H2.
  simpl in H1, H2.
  repeat case_decide; unfold unused in *; simpl in *; first [lia|congruence].
Qed.

(** X4.  Releasing a target twice is the same as releasing it once, in
    every state and whatever the two times are: the first call removes the
    binding, so the second one finds none and changes nothing. *)
Theorem releaseContext_twice c t1 t2 m :
  releaseContext c t2 (releaseContext c t1 m) = releaseContext c t1 m.
Proof.
  unfold releaseContext at 2 3.
  destruct (contextMap m !! target c) as [g|] eqn:Hc.
  - unfold releaseContext. cbn [contextMap setContextMap].
    by rewrite lookup_delete_eq.
  - unfold releaseContext. by rewrite Hc.
Qed.

(** X5.  [getContext] returns [null] exactly when the target has no
    binding, every entry is in use, and the pool is at capacity or the
    browser gives no context; the call then leaves the state as it is, so
    a later call asks the browser again. *)
Theorem getContext_null_iff c env m :
  let r := getContext c env m in
  (returned r = None ↔
     contextMap m !! target c = None
     ∧ (∀ e, e ∈ contexts m → isInUse e = true)
     ∧ ((maxContexts m ≤ length (contexts m))%nat ∨ webgl2 env = false))
  ∧ (returned r = None → after r = m).
Proof.
  simpl. split.
  - split.
    + unfold returned.
      destruct (getContext_cases c env m) as [g Hc|i e Hc Hf|Hc Hf Hlen Hgl|Hc Hf Hfull _];
        cbn [fst snd]; try done.
      intros _. split; [done|]. split; [|done].
      intros e He. by eapply find_unused_None.
    + intros (Hc & Hused & Hfull).
      rewrite (getContext_exhausted c env m Hc); [done| |done].
      apply list_find_None, Forall_forall. intros e He Hu.
      unfold unused in Hu. by rewrite (Hused e He) in Hu.
  - unfold returned, after.
    by destruct (getContext_cases c env m); cbn [fst snd].
Qed.

(** X6.  A call of [getContext] leaves the bindings of the other targets as
    they are, and leaves every entry as it is except the one whose context
    it returns. *)
Theorem getContext_others c env m :
  let r := getContext c env m in
  (∀ c', c' ≠ target c → contextMap (after r) !! c' = contextMap m !! c')
  ∧ (∀ j e, contexts m !! j = Some e → returned r ≠ Some (gl e) →
       contexts (after r) !! j = Some e).
Proof.
  unfold after, returned.
  destruct (getContext_cases c env m) as [g Hc|i e Hc Hf|Hc Hf Hlen Hgl|];
    cbn [fst snd].
  - unfold markContextAsUsed.
    destruct (list_find _ _) as [[i e]|] eqn:Hf; [|done].
    apply find_tracks_Some in Hf as [Hi Hg]. simpl. split; [done|].
    intros j e' Hj Hne. rewrite list_lookup_alter_ne; [done|].
    intros ->. congruence.
  - apply find_unused_Some in Hf as (Hi & _ & _).
    unfold assignContextToCanvas. rewrite Hi. simpl. split.
    + intros c' Hc'. by rewrite lookup_insert_ne.
    + intros j e' Hj Hne. rewrite list_lookup_alter_ne; [done|].
      intros ->. congruence.
  - unfold createNewContext. rewrite Hgl. cbn [fst].
    unfold assignContextToCanvas. cbn [contexts].
    rewrite lookup_app_r, Nat.sub_diag by done. simpl. split.
    + intros c' Hc'. by rewrite lookup_insert_ne.
    + intros j e' Hj _. pose proof (lookup_lt_Some _ _ _ Hj).
      rewrite list_lookup_alter_ne by lia. by apply lookup_app_l_Some.
  - done.
Qed.

(** ** Entries in use and bindings *)

Lemma same_gl_same_entry l (e1 e2 : ContextEntry) :
  NoDup (gl <$> l) → e1 ∈ l → e2 ∈ l → gl e1 = gl e2 → e1 = e2.
Proof.
  intros Hnd [i Hi]%list_elem_of_lookup_1 [j Hj]%list_elem_of_lookup_1 Hg.
  assert (i = j); [|congruence].
  eapply (NoDup_lookup _ i j (gl e1)); [exact Hnd|..];
    rewrite list_lookup_fmap; [rewrite Hi|rewrite Hj]; simpl; congruence.
Qed.

Lemma all_bound_alter_keep (f : ContextEntry → ContextEntry) i m :
  (∀ e, gl (f e) = gl e) → (∀ e, isInUse (f e) = isInUse e) →
  all_bound m → all_bound (setContexts (alter f i (contexts m)) m).
Proof.
  intros Hgl Huse Hb e' [j Hj]%list_elem_of_lookup_1 Hu. simpl in *.
  apply lookup_alter_inv in Hj as [[-> (e & He & ->)]|[_ Hj]].
  - rewrite Hgl. rewrite Huse in Hu.
    apply Hb; [by eapply list_elem_of_lookup_2|done].
  - apply Hb; [by eapply list_elem_of_lookup_2|done].
Qed.

Lemma all_bound_assign i c now m e :
  contexts m !! i = Some e → contextMap m !! target c = None →
  all_bound m → all_bound (assignContextToCanvas i c now m).
Proof.
  intros Hi Hc Hb. unfold assignContextToCanvas. rewrite Hi.
  intros e' [j Hj]%list_elem_of_lookup_1 Hu. simpl in *.
  apply lookup_alter_inv in Hj as [[-> (e0 & He0 & ->)]|[_ Hj]].
  - exists (target c). simplify_eq. by rewrite lookup_insert_eq.
  - destruct (Hb e') as [c' Hc']; [by eapply list_elem_of_lookup_2|done|].
    exists c'. rewrite lookup_insert_ne; [done|]. intros <-. congruence.
Qed.

Lemma all_bound_getContext c env m :
  wf m → all_bound m → all_bound (after (getContext c env m)).
Proof.
  intros Hwf Hb. unfold after.
  destruct (getContext_cases c env m) as [g Hc|i e Hc Hf|Hc Hf Hlen Hgl|];
    cbn [fst snd].
  - unfold markContextAsUsed. destruct (list_find _ _) as [[i e]|]; [|done].
    by apply all_bound_alter_keep.
  - apply find_unused_Some in Hf as (Hi & _ & _).
    by eapply all_bound_assign.
  - destruct (wf_createNewContext env m Hwf Hgl Hlen)
      as (_ & Hmap & e & Hl & Hg & Hu).
    eapply (all_bound_assign _ _ _ _ e).
    + rewrite Hl. by rewrite lookup_app_r, Nat.sub_diag.
    + by rewrite Hmap.
    + intros e' He' Hu'. rewrite Hl in He'. rewrite Hmap.
      apply elem_of_app in He' as [He'| ->%list_elem_of_singleton];
        [by apply Hb|congruence].
  - done.
Qed.

Lemma all_bound_releaseContext c now m :
  wf m → all_bound m → all_bound (releaseContext c now m).
Proof.
  intros Hwf Hb. unfold releaseContext.
  destruct (contextMap m !! target c) as [g|] eqn:Hc; [|done].
  destruct (wf_bound_find m _ g Hwf Hc) as (i & e & Hf & Hi & Hg & Hu).
  rewrite Hf. intros e' [j Hj]%list_elem_of_lookup_1 Hu'. simpl in *.
  apply lookup_alter_inv in Hj as [[-> (e0 & He0 & ->)]|[Hne Hj]]; [done|].
  destruct (Hb e') as [c' Hc']; [by eapply list_elem_of_lookup_2|done|].
  exists c'. rewrite lookup_delete_ne; [done|]. intros <-.
  apply Hne.
  eapply (NoDup_lookup _ j i g); [apply (wf_nodup m Hwf)|..];
    rewrite list_lookup_fmap; [rewrite Hj|rewrite Hi]; simpl; congruence.
Qed.

Lemma all_bound_run ops m : wf m → all_bound m → all_bound (run ops m).
Proof.
  unfold run. revert m.
  induction ops as [|op ops IH]; intros m Hwf Hb; simpl; [done|].
  apply IH; [by apply wf_step|].
  destruct op as [c env|c now|g w h|g cs]; simpl.
  - by apply all_bound_getContext.
  - by apply all_bound_releaseContext.
  - unfold updateContextSize. destruct (list_find _ _) as [[i e]|]; [|done].
    by apply all_bound_alter_keep.
  - done.
Qed.

(** X7.  After every sequence of calls on a new pool, an entry is in use
    exactly when some target is bound to its context: no entry stays
    claimed without a target that can release it. *)
Theorem inUse_iff_bound capacity ops e :
  let m := run ops (newManager capacity) in
  e ∈ contexts m →
  (isInUse e = true ↔ ∃ c, contextMap m !! c = Some (gl e)).
Proof.
  intros m He.
  assert (Hwf : wf m) by apply wf_run, wf_newManager.
  assert (Hb : all_bound m).
  { apply all_bound_run; [apply wf_newManager|]. intros e' He'.
    by apply elem_of_nil in He'. }
  split; [by apply Hb|].
  intros [c Hc]. destruct (wf_bound m Hwf c _ Hc) as (i & e0 & Hi & Hg & Hu).
  apply list_elem_of_lookup_2 in Hi.
  by rewrite <-(same_gl_same_entry _ e0 e (wf_nodup m Hwf) Hi He Hg).
Qed.

Lemma inUse_iff_bound_witness :
  let m := run twoReleased newWebGLContextManager in
  entryOf 2 300 150 true 3 ∈ contexts m
  ∧ contextMap m !! 2%nat = Some 2%nat
  ∧ isInUse (entryOf 2 300 150 true 3) = true.
Proof.
  assert (He : entryOf 2 300 150 true 3
               ∈ contexts (run twoReleased newWebGLContextManager)).
  { apply (list_elem_of_lookup_2 _ 2%nat). vm_compute. reflexivity. }
  split; [exact He|]. split; [vm_compute; reflexivity|].
  apply (inUse_iff_bound 14 twoReleased _ He).
  exists 2%nat. vm_compute. reflexivity.
Defined.

(** X8.  In a state reached by a sequence of calls on a new pool in which
    every entry is in use: when a bound target releases its context and a
    target without a binding then calls [getContext], the call returns the
    context just released, from the free entry; the new target is bound to
    it, the old one is no longer bound, and the pool has as many entries as
    before. *)
Theorem release_then_getContext capacity ops c c' g now env :
  let m := run ops (newManager capacity) in
  (∀ e, e ∈ contexts m → isInUse e = true) →
  contextMap m !! target c = Some g →
  contextMap m !! target c' = None →
  let r := getContext c' env (releaseContext c now m) in
  returned r = Some g ∧ branch r = ReusedFree
  ∧ contextMap (after r) !! target c' = Some g
  ∧ contextMap (after r) !! target c = None
  ∧ total (getStats (after r)) = total (getStats m).
Proof.
  intros m Hused Hc Hc'.
  assert (Hwf : wf m) by apply wf_run, wf_newManager.
  destruct (wf_bound_find m _ g Hwf Hc) as (i & e & Hf & Hi & Hg & Hu).
  assert (Hne : target c ≠ target c') by congruence.
  assert (Hrel : releaseContext c now m
    = setContextMap (delete (target c) (contextMap m))
        (glCalls g [GL.clearColor 0 0 0 0; GL.clear]
           (setContexts (alter (idle now) i (contexts m)) m))).
  { unfold releaseContext. by rewrite Hc, Hf. }
  set (m1 := releaseContext c now m) in *.
  assert (Hfree : list_find unused (contexts m1) = Some (i, idle now e)).
  { rewrite Hrel. simpl. apply list_find_Some. split; [|split; [done|]].
    - by rewrite list_lookup_alter_eq, Hi.
    - intros j e' Hj Hlt Hun. rewrite list_lookup_alter_ne in Hj by lia.
      apply list_elem_of_lookup_2 in Hj. unfold unused in Hun.
      by rewrite (Hused e' Hj) in Hun. }
  assert (Hmiss : contextMap m1 !! target c' = None).
  { rewrite Hrel. simpl. by rewrite lookup_delete_ne. }
  intros r. subst r. rewrite (getContext_reuse c' env m1 _ _ Hmiss Hfree).
  unfold returned, branch, after. cbn [fst snd].
  pose proof (find_unused_Some _ _ _ Hfree) as (Hi1 & _ & _).
  unfold assignContextToCanvas. rewrite Hi1. simpl.
  split; [by rewrite Hg|]. split; [done|].
  split; [by rewrite lookup_insert_eq, Hg|]. split.
  - rewrite lookup_insert_ne by done. rewrite Hrel. simpl.
    by rewrite lookup_delete_eq.
  - rewrite length_alter. rewrite Hrel. simpl. by rewrite length_alter.
Qed.

Lemma release_then_getContext_witness :
  returned (getContext (canvasOf 13) (atTime 5)
              (releaseContext (canvasOf 11) 4 (run
                 [OpGetContext (canvasOf 10) (atTime 1);
                  OpGetContext (canvasOf 11) (atTime 2);
                  OpGetContext (canvasOf 12) (atTime 3)] (newManager 3))))
  = Some 1%nat.
Proof.
  apply (release_then_getContext 3
           [OpGetContext (canvasOf 10) (atTime 1);
            OpGetContext (canvasOf 11) (atTime 2);
            OpGetContext (canvasOf 12) (atTime 3)]
           (canvasOf 11) (canvasOf 13) 1%nat 4 (atTime 5)).
  - intros e He. refine (find_unused_None _ e _ He). vm_compute. reflexivity.
  - vm_compute. reflexivity.
  - vm_compute. reflexivity.
Defined.

Lemma getContext_binds c env m g :
  returned (getContext c env m) = Some g →
  contextMap (after (getContext c env m)) !! target c = Some g.
Proof.
  unfold returned, after.
  destruct (getContext_cases c env m) as [g' Hc|i e Hc Hf|Hc Hf Hlen Hgl|];
    cbn [fst snd]; intros [= <-].
  - by destruct (markContextAsUsed_frame g' (tNow env) m) as (_ & _ & -> & _).
  - apply find_unused_Some in Hf as (Hi & _ & _).
    unfold assignContextToCanvas. rewrite Hi. simpl.
    by rewrite lookup_insert_eq.
  - unfold createNewContext. rewrite Hgl. cbn [fst].
    unfold assignContextToCanvas. cbn [contexts].
    rewrite lookup_app_r, Nat.sub_diag by done. simpl.
    by rewrite lookup_insert_eq.
Qed.

(** X9.  In a state reached by a sequence of calls on a new pool, the
    context that [getContext] returns is bound to the target of the call
    and to no other target: no context is ever handed to two targets at a
    time. *)
Theorem getContext_exclusive capacity ops c env g :
  let m := run ops (newManager capacity) in
  let r := getContext c env m in
  returned r = Some g →
  contextMap (after r) !! target c = Some g
  ∧ ∀ c', contextMap (after r) !! c' = Some g → c' = target c.
Proof.
  intros m r Hr.
  assert (Hwf : wf (after r)) by apply wf_getContext, wf_run, wf_newManager.
  pose proof (getContext_binds c env m g Hr) as Hb.
  split; [exact Hb|]. intros c' Hc'. by apply (wf_inj _ Hwf c' (target c) g).
Qed.

Lemma getContext_exclusive_witness :
  let m := run twoReleased newWebGLContextManager in
  let r := getContext (canvasOf 99) (atTime 17) m in
  returned r = Some 0%nat
  ∧ contextMap (after r) !! target (canvasOf 99) = Some 0%nat.
Proof.
  assert (Hr : returned (getContext (canvasOf 99) (atTime 17)
                 (run twoReleased newWebGLContextManager)) = Some 0%nat)
    by (vm_compute; reflexivity).
  split; [exact Hr|].
  apply (getContext_exclusive 14 twoReleased (canvasOf 99) (atTime 17) 0%nat Hr).
Defined.

(** X10.  The entry behind the result of [getContext], in every state.
    For a target with a binding the call returns the bound context and
    resizes no backing canvas, whatever the size of the target is now.  For
    a target without a binding, a context that the call returns belongs to
    an entry that is in use, carries the time of the call, and whose
    backing canvas has the width and the height of the target. *)
Theorem getContext_entry c env m :
  let r := getContext c env m in
  match contextMap m !! target c with
  | Some g =>
      returned r = Some g ∧ canvas <$> contexts (after r) = canvas <$> contexts m
  | None =>
      ∀ g, returned r = Some g →
        ∃ i e, contexts (after r) !! i = Some e ∧ gl e = g
          ∧ isInUse e = true ∧ lastUsed e = tNow env
          ∧ backingWidth (canvas e) = width c
          ∧ backingHeight (canvas e) = height c
  end.
Proof.
  unfold returned, after.
  destruct (getContext_cases c env m) as [g Hc|i e Hc Hf|Hc Hf Hlen Hgl|Hc Hf Hfull _];
    rewrite Hc; cbn [fst snd].
  - split; [done|]. unfold markContextAsUsed.
    destruct (list_find _ _) as [[i e]|]; [|done]. simpl.
    apply list_eq. intros j. rewrite !list_lookup_fmap.
    destruct (decide (i = j)) as [->|Hne].
    + rewrite list_lookup_alter_eq. by destruct (contexts m !! j).
    + by rewrite list_lookup_alter_ne.
  - intros g [= <-]. apply find_unused_Some in Hf as (Hi & _ & _).
    exists i, (assign c (tNow env) e).
    unfold assignContextToCanvas. rewrite Hi. simpl.
    by rewrite list_lookup_alter_eq, Hi.
  - intros g [= <-]. unfold createNewContext. rewrite Hgl. cbn [fst].
    unfold assignContextToCanvas. cbn [contexts].
    rewrite lookup_app_r, Nat.sub_diag by done. simpl.
    eexists (length (contexts m)), _.
    rewrite list_lookup_alter_eq, lookup_app_r, Nat.sub_diag by done.
    simpl. done.
  - done.
Qed.

Lemma canvasSize_range default x :
  0 ≤ default ≤ 2147483647 → 0 ≤ canvasSize default x ≤ 2147483647.
Proof.
  intros Hd. unfold canvasSize, toUint32. case_decide; [|done].
  pose proof (Z.mod_pos_bound x 4294967296). lia.
Qed.

Lemma canvasSize_exact default x :
  0 ≤ x ≤ 2147483647 → canvasSize default x = x.
Proof.
  intros Hx. unfold canvasSize, toUint32.
  rewrite Z.mod_small by lia. by rewrite decide_True by lia.
Qed.

(** X11.  [updateContextSize] on the context of an entry, in a state reached
    by a sequence of calls on a new pool, for integers [w] and [h].  The
    backing canvas of that entry gets the sizes that the assignments to
    [canvas.width] and [canvas.height] give: [w] and [h] themselves when
    they are between 0 and 2147483647; in general [w] and [h] modulo 2^32,
    replaced by 300 and 150 when that is above 2147483647; so always a
    size between 0 and 2147483647.  The entry keeps its context, its
    [isInUse] and its [lastUsed]; the other entries, the bindings and the
    numbers of [getStats] are as before. *)
Theorem updateContextSize_tracked capacity ops i e w h :
  let m := run ops (newManager capacity) in
  let m' := updateContextSize (gl e) w h m in
  contexts m !! i = Some e →
  (∃ e', contexts m' !! i = Some e'
     ∧ backingWidth (canvas e')
       = (if decide (w mod 2 ^ 32 ≤ 2147483647) then w mod 2 ^ 32 else 300)
     ∧ backingHeight (canvas e')
       = (if decide (h mod 2 ^ 32 ≤ 2147483647) then h mod 2 ^ 32 else 150)
     ∧ (0 ≤ w ≤ 2147483647 → backingWidth (canvas e') = w)
     ∧ (0 ≤ h ≤ 2147483647 → backingHeight (canvas e') = h)
     ∧ 0 ≤ backingWidth (canvas e') ≤ 2147483647
     ∧ 0 ≤ backingHeight (canvas e') ≤ 2147483647
     ∧ gl e' = gl e ∧ isInUse e' = isInUse e ∧ lastUsed e' = lastUsed e)
  ∧ (∀ j, j ≠ i → contexts m' !! j = contexts m !! j)
  ∧ contextMap m' = contextMap m
  ∧ getStats m' = getStats m.
Proof.
  intros m m' Hi.
  assert (Hwf : wf m) by apply wf_run, wf_newManager.
  pose proof (find_tracks_nodup _ _ _ (wf_nodup m Hwf) Hi) as Hf.
  subst m'. unfold updateContextSize. rewrite Hf.
  split; [|split; [|split; [done|]]].
  - exists (resize w h e). simpl. rewrite list_lookup_alter_eq, Hi.
    split; [done|]. split; [done|]. split; [done|].
    split; [by apply canvasSize_exact|]. split; [by apply canvasSize_exact|].
    split; [apply canvasSize_range; lia|].
    split; [apply canvasSize_range; lia|done].
  - intros j Hj. simpl. by rewrite list_lookup_alter_ne.
  - by apply getStats_alter_keep.
Qed.

Lemma updateContextSize_tracked_witness :
  let m := run twoReleased newWebGLContextManager in
  contexts m !! 2%nat = Some (entryOf 2 300 150 true 3)
  ∧ contexts (updateContextSize 2 640 (-5) m) !! 2%nat
    = Some (entryOf 2 640 150 true 3)
  ∧ getStats (updateContextSize 2 640 (-5) m) = getStats m.
Proof.
  assert (Hi : contexts (run twoReleased newWebGLContextManager) !! 2%nat
               = Some (entryOf 2 300 150 true 3)) by (vm_compute; reflexivity).
  split; [exact Hi|]. split; [vm_compute; reflexivity|].
  apply (updateContextSize_tracked 14 twoReleased 2
           (entryOf 2 300 150 true 3) 640 (-5) Hi).
Defined.

(** X12.  [renderToCanvas] with the context of an entry whose backing canvas
    has no side of length zero, in a state reached by a sequence of calls
    on a new pool, and a target that has a 2D context: the call returns
    without an exception after it has cleared the rectangle of the target's
    size and drawn the backing canvas of the entry, with the pixels of its
    context, at the origin of the target. *)
Theorem renderToCanvas_tracked_draws capacity ops i e targetCanvas drawn :
  let m := run ops (newManager capacity) in
  contexts m !! i = Some e →
  backingWidth (canvas e) ≠ 0 → backingHeight (canvas e) ≠ 0 →
  ∃ st, webgl m !! gl e = Some st
    ∧ renderToCanvas (gl e) targetCanvas (Some drawn) m
      = Returned (Some (drawn ++
          [clearRect 0 0 (width targetCanvas) (height targetCanvas);
           drawImage (canvas e) (Some (GL.colorBuffer st)) 0 0])).
Proof.
  intros m Hi Hw Hh.
  assert (Hwf : wf m) by apply wf_run, wf_newManager.
  pose proof (find_tracks_nodup _ _ _ (wf_nodup m Hwf) Hi) as Hf.
  destruct (wf_store m Hwf e) as [st Hst]; [by eapply list_elem_of_lookup_2|].
  exists st. split; [done|]. unfold renderToCanvas. rewrite Hf, Hst.
  rewrite decide_False by (intros [?|?]; done). simpl.
  by rewrite <-app_assoc.
Qed.

Lemma renderToCanvas_tracked_draws_witness :
  let m := run twoReleased newWebGLContextManager in
  contexts m !! 2%nat = Some (entryOf 2 300 150 true 3)
  ∧ ∃ st, webgl m !! 2%nat = Some st
      ∧ renderToCanvas 2 (canvasOf 2) (Some []) m
        = Returned (Some [clearRect 0 0 300 150;
                          drawImage (canvas (entryOf 2 300 150 true 3))
                            (Some (GL.colorBuffer st)) 0 0]).
Proof.
  assert (Hi : contexts (run twoReleased newWebGLContextManager) !! 2%nat
               = Some (entryOf 2 300 150 true 3)) by (vm_compute; reflexivity).
  split; [exact Hi|].
  apply (renderToCanvas_tracked_draws 14 twoReleased 2
           (entryOf 2 300 150 true 3) (canvasOf 2) [] Hi); simpl; lia.
Defined.

(** ** The configuration of the contexts *)



Lemma renderCalls_keepBlend updatesOnRender fx :
  Forall (λ call, keepsBlend call = true) (renderCalls updatesOnRender fx).
Proof. destruct updatesOnRender; repeat constructor. Qed.





(** * Properties of the renderer *)

Section Renderer.
Import MediaEffect.
Implicit Types (w : World) (g : nat) (k : Key) (gpu : Gpu).

Lemma get_set_eq k v r : get k (set k v r) = v.
Proof. by destruct r, k. Qed.

Lemma get_set_ne k k' v r : k' ≠ k → get k' (set k v r) = get k' r.
Proof. by destruct r, k, k'. Qed.

Lemma cacheGet_cacheSet_eq g k v w : cacheGet g k (cacheSet g k v w) = v.
Proof.
  unfold cacheGet, cacheSet. simpl.
  destruct (cache w !! g) as [r|] eqn:Hr.
  - rewrite lookup_alter_eq, Hr. simpl. apply get_set_eq.
  - rewrite lookup_alter_eq, lookup_insert_eq. simpl. by destruct k.
Qed.

Lemma cacheGet_cacheSet_other_key g k k' v w :
  k' ≠ k → cacheGet g k' (cacheSet g k v w) = cacheGet g k' w.
Proof.
  intros Hk. unfold cacheGet, cacheSet. simpl.
  destruct (cache w !! g) as [r|] eqn:Hr.
  - rewrite lookup_alter_eq, Hr. simpl. by apply get_set_ne.
  - rewrite lookup_alter_eq, lookup_insert_eq. simpl. by destruct k, k'.
Qed.

Lemma cacheGet_cacheSet_other_context g g' k k' v w :
  g' ≠ g → cacheGet g' k' (cacheSet g k v w) = cacheGet g' k' w.
Proof.
  intros Hg. unfold cacheGet, cacheSet. simpl.
  rewrite lookup_alter_ne by done.
  destruct (cache w !! g); [done|]. by rewrite lookup_insert_ne.
Qed.

(** X14.  [cacheGet] after [cacheSet] gives the value that was set, for the
    context and the key that were set, also when the context had no record
    before; for every other pair of a context and a key it gives what it
    gave before. *)
Theorem cacheSet_then_cacheGet g k v g' k' w :
  cacheGet g k (cacheSet g k v w) = v
  ∧ ((g', k') ≠ (g, k) →
     cacheGet g' k' (cacheSet g k v w) = cacheGet g' k' w).
Proof.
  split; [apply cacheGet_cacheSet_eq|]. intros Hne.
  destruct (decide (g' = g)) as [->|Hg].
  - apply cacheGet_cacheSet_other_key. congruence.
  - by apply cacheGet_cacheSet_other_context.
Qed.

Lemma extends_refl g w : extends g w w.
Proof. by repeat split. Qed.

Lemma extends_trans g w1 w2 w3 :
  extends g w1 w2 → extends g w2 w3 → extends g w1 w3.
Proof.
  intros (H1 & H2 & H3) (H1' & H2' & H3'). repeat split.
  - intros k v Hk. by apply H1', H1.
  - intros g' k Hg. by rewrite H2', H2.
  - congruence.
Qed.

Lemma extends_cacheSet g k v w :
  cacheGet g k w = None → extends g w (cacheSet g k v w).
Proof.
  intros Hnone. repeat split.
  - intros k' v' Hk'. rewrite cacheGet_cacheSet_other_key; [done|].
    intros ->. congruence.
  - intros g' k' Hg. by apply cacheGet_cacheSet_other_context.
Qed.

Lemma extends_same_cache g w w' :
  cache w' = cache w → statusListeners w' = statusListeners w →
  extends g w w'.
Proof. intros Hc Hl. unfold extends, cacheGet. by rewrite Hc. Qed.

Lemma compileShader_extends g ty gpu w :
  extends g w (world (compileShader g ty gpu w))
  ∧ cache (world (compileShader g ty gpu w)) = cache w.
Proof.
  unfold compileShader. destruct (createShader gpu ty); simpl;
    [|split; [apply extends_refl|done]].
  destruct (compileStatus gpu ty); simpl;
    [split; [by apply extends_same_cache|done]|].
  destruct (shaderInfoLog gpu ty) as [[|a s]|];
    (split; [by apply extends_same_cache|done]).
Qed.

Lemma compileProgram_extends g gpu w :
  cacheGet g KProgram w = None →
  extends g w (world (compileProgram g gpu w)).
Proof.
  intros Hnone. unfold compileProgram.
  destruct (createProgram gpu) as [prog|]; [|apply extends_refl].
  destruct (compileShader_extends g VERTEX_SHADER gpu w) as [E1 C1].
  destruct (compileShader g VERTEX_SHADER gpu w) as [vs w1|e w1]; simpl in *;
    [|done].
  destruct (compileShader_extends g FRAGMENT_SHADER gpu w1) as [E2 C2].
  destruct (compileShader g FRAGMENT_SHADER gpu w1) as [fs w2|e w2];
    simpl in *; [|by eapply extends_trans].
  eapply extends_trans; [exact E1|]. eapply extends_trans; [exact E2|].
  apply extends_cacheSet. unfold cacheGet in *. by rewrite C2, C1.
Qed.

Lemma createPositionBuffer_extends g gpu w :
  cacheGet g KPositionBuffer w = None →
  extends g w (world (createPositionBuffer g gpu w)).
Proof.
  intros Hnone. unfold createPositionBuffer.
  destruct (createPositionBufferObject gpu); simpl;
    [by apply extends_cacheSet|apply extends_refl].
Qed.

Lemma cacheGet_issue g g' k calls w :
  cacheGet g' k (issue g calls w) = cacheGet g' k w.
Proof. done. Qed.

Lemma createTexCoordBuffer_extends g gpu w :
  cacheGet g KTexCoordBuffer w = None →
  extends g w (createTexCoordBuffer g gpu w).
Proof.
  intros Hnone. unfold createTexCoordBuffer.
  destruct (createTexCoordBufferObject gpu); [|apply extends_refl].
  eapply extends_trans; [|by apply extends_cacheSet].
  by apply extends_same_cache.
Qed.

Lemma loadTexture_extends g ready k gpu w :
  cacheGet g k w = None → extends g w (loadTexture g ready k gpu w).
Proof.
  intros Hnone. unfold loadTexture.
  destruct ready; simpl; [|apply extends_refl].
  destruct (createTexture gpu k); [|apply extends_refl].
  eapply extends_trans; [|by apply extends_cacheSet].
  by apply extends_same_cache.
Qed.

Lemma unlessCached_extends g k create w :
  (cacheGet g k w = None → extends g w (create w)) →
  extends g w (unlessCached g k create w).
Proof.
  intros H. unfold unlessCached.
  destruct (cacheGet g k w) eqn:Hk; [apply extends_refl|by apply H].
Qed.

Lemma ensureCache_extends g ready gpu w :
  extends g w (world (ensureCache g ready gpu w)).
Proof.
  unfold ensureCache.
  assert (E1 : extends g w (world
            match cacheGet g KProgram w with
            | Some _ => Done () w
            | None => compileProgram g gpu w
            end)).
  { destruct (cacheGet g KProgram w) eqn:Hp;
      [apply extends_refl|by apply compileProgram_extends]. }
  destruct (match cacheGet g KProgram w with
            | Some _ => Done () w
            | None => compileProgram g gpu w
            end) as [[] w1|e w1]; simpl in *; [|done].
  assert (E2 : extends g w1 (world
            match cacheGet g KPositionBuffer w1 with
            | Some _ => Done () w1
            | None => createPositionBuffer g gpu w1
            end)).
  { destruct (cacheGet g KPositionBuffer w1) eqn:Hp;
      [apply extends_refl|by apply createPositionBuffer_extends]. }
  destruct (match cacheGet g KPositionBuffer w1 with
            | Some _ => Done () w1
            | None => createPositionBuffer g gpu w1
            end) as [[] w2|e w2]; simpl in *; [|by eapply extends_trans].
  eapply extends_trans; [exact E1|]. eapply extends_trans; [exact E2|].
  eapply extends_trans;
    [apply unlessCached_extends, createTexCoordBuffer_extends|].
  eapply extends_trans;
    [apply unlessCached_extends, loadTexture_extends|].
  eapply extends_trans;
    [apply unlessCached_extends, loadTexture_extends|].
  apply unlessCached_extends, loadTexture_extends.
Qed.

(** X15.  Whether [ensureCache] returns or throws, an object that the cache
    held for the context before the call is still the one it holds after
    it, and the records of the other contexts are as before: nothing is
    created twice for a context, and no other context is touched. *)
Theorem ensureCache_keeps g ready gpu w :
  let w' := world (ensureCache g ready gpu w) in
  (∀ k v, cacheGet g k w = Some v → cacheGet g k w' = Some v)
  ∧ (∀ g' k, g' ≠ g → cacheGet g' k w' = cacheGet g' k w).
Proof.
  destruct (ensureCache_extends g ready gpu w) as (H1 & H2 & _). by split.
Qed.

Lemma ensureCache_cached g ready gpu w :
  (∀ k, is_Some (cacheGet g k w)) →
  ensureCache g ready gpu w = Done tt w.
Proof.
  intros Hall. unfold ensureCache, unlessCached.
  destruct (Hall KProgram) as [? ->]. simpl.
  destruct (Hall KPositionBuffer) as [? ->]. simpl.
  destruct (Hall KTexCoordBuffer) as [? ->].
  destruct (Hall KTexture) as [? ->].
  destruct (Hall KPattern1Texture) as [? ->].
  by destruct (Hall KPattern2Texture) as [? ->].
Qed.

(** X16.  When the cache holds all six objects for the context,
    [ensureCache] returns without creating, binding or reporting anything,
    whatever the context would answer and whether the media is ready or
    not; [prepare] is the same call. *)
Theorem ensureCache_complete g ready gpu w :
  (∀ k, is_Some (cacheGet g k w)) →
  ensureCache g ready gpu w = Done tt w
  ∧ prepare g ready gpu w = Done tt w.
Proof. intros Hall. split; by apply ensureCache_cached. Qed.

Lemma warm_complete k : is_Some (cacheGet 0 k warm).
Proof. destruct k; vm_compute; eauto. Qed.

Lemma ensureCache_complete_witness :
  ensureCache 0 false generous warm = Done tt warm.
Proof.
  apply (ensureCache_complete 0 false generous warm warm_complete).
Defined.

Lemma unlessCached_is_Some g k create w :
  (cacheGet g k w = None → is_Some (cacheGet g k (create w))) →
  is_Some (cacheGet g k (unlessCached g k create w)).
Proof.
  intros H. unfold unlessCached.
  destruct (cacheGet g k w) eqn:Hk; [by rewrite Hk|by apply H].
Qed.

Lemma loadTexture_is_Some g k gpu w :
  is_Some (createTexture gpu k) →
  is_Some (cacheGet g k (loadTexture g true k gpu w)).
Proof.
  intros [t Ht]. unfold loadTexture. rewrite Ht. simpl.
  by rewrite cacheGet_cacheSet_eq.
Qed.

Lemma is_Some_extends g k w w' :
  extends g w w' → is_Some (cacheGet g k w) → is_Some (cacheGet g k w').
Proof. intros (H & _) [v Hv]. rewrite (H k v Hv). eauto. Qed.

(** X17.  When the media is ready and the context gives every object it is
    asked for, [ensureCache] returns, and afterwards the cache holds all
    six objects for the context, whatever it held before. *)
Theorem ensureCache_fills g gpu w :
  is_Some (createProgram gpu) →
  (∀ ty, is_Some (createShader gpu ty)) →
  is_Some (createPositionBufferObject gpu) →
  is_Some (createTexCoordBufferObject gpu) →
  (∀ k, is_Some (createTexture gpu k)) →
  ∃ w', ensureCache g true gpu w = Done tt w'
        ∧ ∀ k, is_Some (cacheGet g k w').
Proof.
  intros [p Hp] Hsh [pb Hpb] [tb Htb] Htex.
  destruct (Hsh VERTEX_SHADER) as [vs Hvs].
  destruct (Hsh FRAGMENT_SHADER) as [fs Hfs].
  unfold ensureCache.
  assert (S1 : ∃ w1,
    match cacheGet g KProgram w with
    | Some _ => Done () w
    | None => compileProgram g gpu w
    end = Done tt w1 ∧ is_Some (cacheGet g KProgram w1)).
  { destruct (cacheGet g KProgram w) eqn:Hk; [eexists; by rewrite Hk|].
    unfold compileProgram, compileShader. rewrite Hp, Hvs. simpl.
    destruct (compileStatus gpu VERTEX_SHADER); simpl; rewrite Hfs;
      destruct (compileStatus gpu FRAGMENT_SHADER); simpl;
      eexists; (split; [reflexivity|]); by rewrite cacheGet_cacheSet_eq. }
  destruct S1 as (w1 & -> & K1). simpl.
  assert (S2 : ∃ w2,
    match cacheGet g KPositionBuffer w1 with
    | Some _ => Done () w1
    | None => createPositionBuffer g gpu w1
    end = Done tt w2 ∧ is_Some (cacheGet g KPositionBuffer w2)
    ∧ extends g w1 w2).
  { destruct (cacheGet g KPositionBuffer w1) eqn:Hk.
    - eexists. rewrite Hk. by split; [|split; [|apply extends_refl]].
    - unfold createPositionBuffer. rewrite Hpb. eexists.
      split; [reflexivity|]. split; [by rewrite cacheGet_cacheSet_eq|].
      by apply extends_cacheSet. }
  destruct S2 as (w2 & -> & K2 & E2). simpl.
  set (w3 := unlessCached g KTexCoordBuffer (createTexCoordBuffer g gpu) w2).
  set (w4 := unlessCached g KTexture (loadTexture g true KTexture gpu) w3).
  set (w5 := unlessCached g KPattern1Texture
               (loadTexture g true KPattern1Texture gpu) w4).
  set (w6 := unlessCached g KPattern2Texture
               (loadTexture g true KPattern2Texture gpu) w5).
  assert (E3 : extends g w2 w3)
    by apply unlessCached_extends, createTexCoordBuffer_extends.
  assert (E4 : extends g w3 w4)
    by apply unlessCached_extends, loadTexture_extends.
  assert (E5 : extends g w4 w5)
    by apply unlessCached_extends, loadTexture_extends.
  assert (E6 : extends g w5 w6)
    by apply unlessCached_extends, loadTexture_extends.
  assert (K3 : is_Some (cacheGet g KTexCoordBuffer w3)).
  { apply unlessCached_is_Some. intros _. unfold createTexCoordBuffer.
    rewrite Htb. by rewrite cacheGet_cacheSet_eq. }
  assert (K4 : is_Some (cacheGet g KTexture w4))
    by (apply unlessCached_is_Some; intros _; by apply loadTexture_is_Some).
  assert (K5 : is_Some (cacheGet g KPattern1Texture w5))
    by (apply unlessCached_is_Some; intros _; by apply loadTexture_is_Some).
  assert (K6 : is_Some (cacheGet g KPattern2Texture w6))
    by (apply unlessCached_is_Some; intros _; by apply loadTexture_is_Some).
  exists w6. split; [done|].
  intros []; eauto 10 using is_Some_extends.
Qed.

Lemma ensureCache_fills_witness :
  ∃ w', ensureCache 0 true generous (subscribeStatus 9 new) = Done tt w'
        ∧ ∀ k, is_Some (cacheGet 0 k w').
Proof.
  apply (ensureCache_fills 0 generous (subscribeStatus 9 new));
    simpl; eauto.
Defined.

(** X18.  How [ensureCache] ends.  It throws ['Cannot create program'] only
    when the cache has no program for the context and [createProgram]
    gives [null], and then it has changed nothing; ['cannot create shader']
    only when the cache has no program, and then it still has none;
    ['Cannot create position buffer'] only when the cache had no position
    buffer.  When it returns, the cache holds a program and a position
    buffer for the context, also when a shader did not compile. *)
Theorem ensureCache_ends g ready gpu w :
  match ensureCache g ready gpu w with
  | Failed CannotCreateProgram w' =>
      cacheGet g KProgram w = None ∧ createProgram gpu = None ∧ w' = w
  | Failed CannotCreateShader w' =>
      cacheGet g KProgram w = None ∧ cacheGet g KProgram w' = None
      ∧ (createShader gpu VERTEX_SHADER = None
         ∨ createShader gpu FRAGMENT_SHADER = None)
  | Failed CannotCreatePositionBuffer w' =>
      cacheGet g KPositionBuffer w = None
      ∧ createPositionBufferObject gpu = None
      ∧ is_Some (cacheGet g KProgram w')
  | Done _ w' =>
      is_Some (cacheGet g KProgram w')
      ∧ is_Some (cacheGet g KPositionBuffer w')
  end.
Proof.
  pose proof (ensureCache_extends g ready gpu w) as Hext.
  unfold ensureCache in *.
  assert (S1 :
    match match cacheGet g KProgram w with
          | Some _ => Done () w
          | None => compileProgram g gpu w
          end with
    | Done _ w1 => is_Some (cacheGet g KProgram w1)
                   ∧ cacheGet g KPositionBuffer w1 = cacheGet g KPositionBuffer w
    | Failed CannotCreateProgram w' =>
        cacheGet g KProgram w = None ∧ createProgram gpu = None ∧ w' = w
    | Failed CannotCreateShader w' =>
        cacheGet g KProgram w = None ∧ cacheGet g KProgram w' = None
        ∧ (createShader gpu VERTEX_SHADER = None
           ∨ createShader gpu FRAGMENT_SHADER = None)
    | Failed CannotCreatePositionBuffer _ => False
    end).
  { destruct (cacheGet g KProgram w) eqn:Hk; [by rewrite Hk|].
    unfold compileProgram. destruct (createProgram gpu) as [p|]; [|done].
    destruct (compileShader_extends g VERTEX_SHADER gpu w) as [_ C1].
    unfold compileShader in *.
    destruct (createShader gpu VERTEX_SHADER) as [vs|]; simpl in *; [|eauto].
    match goal with
    | |- context [andThen ?r _] => destruct r as [a w1|e w1] eqn:Hr1
    end; [|by destruct (compileStatus gpu VERTEX_SHADER)].
    simpl in *.
    destruct (compileShader_extends g FRAGMENT_SHADER gpu w1) as [_ C2].
    unfold compileShader in *.
    destruct (createShader gpu FRAGMENT_SHADER) as [fs|]; simpl in *.
    - match goal with
      | |- context [andThen ?r _] => destruct r as [b w2|e w2] eqn:Hr2
      end; [|by destruct (compileStatus gpu FRAGMENT_SHADER)].
      simpl in *. rewrite cacheGet_cacheSet_eq. split; [eauto|].
      rewrite cacheGet_cacheSet_other_key by done.
      unfold cacheGet. by rewrite C2, C1.
    - split; [done|]. split; [|eauto]. unfold cacheGet in *. by rewrite C1. }
  destruct (match cacheGet g KProgram w with
            | Some _ => Done () w
            | None => compileProgram g gpu w
            end) as [[] w1|[] w1]; simpl in *; try done.
  destruct S1 as [K1 P1].
  destruct (cacheGet g KPositionBuffer w1) eqn:Hk; simpl in *.
  - split.
    + eapply is_Some_extends; [|exact K1].
      repeat (eapply extends_trans;
        [|first [apply unlessCached_extends, loadTexture_extends
                |apply unlessCached_extends, createTexCoordBuffer_extends]]).
      apply extends_refl.
    + eapply is_Some_extends; [|by rewrite Hk].
      repeat (eapply extends_trans;
        [|first [apply unlessCached_extends, loadTexture_extends
                |apply unlessCached_extends, createTexCoordBuffer_extends]]).
      apply extends_refl.
  - unfold createPositionBuffer in *.
    destruct (createPositionBufferObject gpu) as [pb|]; simpl in *.
    + split.
      * eapply is_Some_extends; [|exact K1].
        eapply extends_trans; [by apply extends_cacheSet|].
        repeat (eapply extends_trans;
          [|first [apply unlessCached_extends, loadTexture_extends
                  |apply unlessCached_extends, createTexCoordBuffer_extends]]).
        apply extends_refl.
      * eapply is_Some_extends;
          [|by rewrite (cacheGet_cacheSet_eq g KPositionBuffer (Some pb) w1)].
        repeat (eapply extends_trans;
          [|first [apply unlessCached_extends, loadTexture_extends
                  |apply unlessCached_extends, createTexCoordBuffer_extends]]).
        apply extends_refl.
    + by rewrite <-P1.
Qed.

Lemma unlessCached_notified g k create w :
  (∀ w0, notified (create w0) = notified w0) →
  notified (unlessCached g k create w) = notified w.
Proof. intros H. unfold unlessCached. by destruct (cacheGet g k w). Qed.

Lemma createTexCoordBuffer_notified g gpu w :
  notified (createTexCoordBuffer g gpu w) = notified w.
Proof.
  unfold createTexCoordBuffer. by destruct (createTexCoordBufferObject gpu).
Qed.

Lemma loadTexture_notified g ready k gpu w :
  notified (loadTexture g ready k gpu w) = notified w.
Proof.
  unfold loadTexture. destruct ready; [|done]. simpl.
  by destruct (createTexture gpu k).
Qed.

Lemma compileShader_notified g ty gpu w :
  is_Some (createShader gpu ty) →
  notified (world (compileShader g ty gpu w))
  = notified w ++ shaderNotes gpu ty w
  ∧ statusListeners (world (compileShader g ty gpu w)) = statusListeners w.
Proof.
  intros [sh Hsh]. unfold compileShader, shaderNotes. rewrite Hsh.
  destruct (compileStatus gpu ty); [done|].
  destruct (shaderInfoLog gpu ty) as [[|a s]|]; simpl;
    by rewrite ?app_nil_r.
Qed.

(** X19.  What [ensureCache] tells the status listeners.  Nothing, when the
    cache holds a program for the context or when [createProgram] or the
    first [createShader] gives [null].  Otherwise every listener is told
    about the vertex shader and then, when the second [createShader] gives
    an object, about the fragment shader: ['ready'] for a shader that
    compiled, ['error'] with the info log for one that did not and has a
    log that is not empty, and nothing for one without such a log.  So a
    program that compiles reports ['ready'] twice to every listener. *)
Theorem ensureCache_notifies g ready gpu w :
  let w' := world (ensureCache g ready gpu w) in
  match cacheGet g KProgram w, createProgram gpu,
        createShader gpu VERTEX_SHADER, createShader gpu FRAGMENT_SHADER with
  | None, Some _, Some _, Some _ =>
      notified w' = notified w ++ shaderNotes gpu VERTEX_SHADER w
                      ++ shaderNotes gpu FRAGMENT_SHADER w
  | None, Some _, Some _, None =>
      notified w' = notified w ++ shaderNotes gpu VERTEX_SHADER w
  | _, _, _, _ => notified w' = notified w
  end.
Proof.
  assert (Hrest : ∀ w1,
    notified (world
      (andThen (match cacheGet g KPositionBuffer w1 with
                | Some _ => Done () w1
                | None => createPositionBuffer g gpu w1
                end) (λ _ w2,
         Done tt
           (unlessCached g KPattern2Texture
              (loadTexture g ready KPattern2Texture gpu)
              (unlessCached g KPattern1Texture
                 (loadTexture g ready KPattern1Texture gpu)
                 (unlessCached g KTexture (loadTexture g ready KTexture gpu)
                    (unlessCached g KTexCoordBuffer
                       (createTexCoordBuffer g gpu) w2)))))))
    = notified w1).
  { intros w1. unfold createPositionBuffer.
    destruct (cacheGet g KPositionBuffer w1);
      [|destruct (createPositionBufferObject gpu); [|done]]; simpl;
      rewrite !unlessCached_notified;
      auto using loadTexture_notified, createTexCoordBuffer_notified. }
  simpl. unfold ensureCache.
  destruct (cacheGet g KProgram w) eqn:Hk.
  { simpl. rewrite Hrest. by repeat case_match. }
  unfold compileProgram. destruct (createProgram gpu) as [p|]; [|done].
  destruct (createShader gpu VERTEX_SHADER) as [vs|] eqn:Hvs;
    [|unfold compileShader; by rewrite Hvs].
  destruct (compileShader_notified g VERTEX_SHADER gpu w) as [N1 L1];
    [by rewrite Hvs|].
  destruct (compileShader g VERTEX_SHADER gpu w) as [a w1|e w1] eqn:Hr1;
    [|unfold compileShader in Hr1; rewrite Hvs in Hr1;
      by destruct (compileStatus gpu VERTEX_SHADER)].
  simpl in N1, L1. cbn [andThen].
  destruct (createShader gpu FRAGMENT_SHADER) as [fs|] eqn:Hfs;
    [|unfold compileShader; by rewrite Hfs].
  destruct (compileShader_notified g FRAGMENT_SHADER gpu w1) as [N2 L2];
    [by rewrite Hfs|].
  destruct (compileShader g FRAGMENT_SHADER gpu w1) as [b w2|e w2] eqn:Hr2;
    [|unfold compileShader in Hr2; rewrite Hfs in Hr2;
      by destruct (compileStatus gpu FRAGMENT_SHADER)].
  simpl in N2, L2. cbn [andThen]. rewrite Hrest. simpl.
  rewrite N2, N1. unfold shaderNotes. rewrite L1. by rewrite <-app_assoc.
Qed.

End Renderer.

Lemma issue_issue g calls1 calls2 w :
  MediaEffect.issue g calls2 (MediaEffect.issue g calls1 w)
  = MediaEffect.issue g (calls1 ++ calls2) w.
Proof. unfold MediaEffect.issue. simpl. by rewrite fmap_app, app_assoc. Qed.

Lemma glCalls_cons g call calls m :
  glCalls g (call :: calls) m = glCalls g calls (glCalls g [call] m).
Proof.
  unfold glCalls, setWebgl. simpl. f_equal.
  apply map_eq. intros i. destruct (decide (i = g)) as [->|Hne].
  - rewrite !lookup_alter_eq. by destruct (webgl m !! g).
  - by rewrite !lookup_alter_ne.
Qed.

Lemma glCalls_nil g m : glCalls g [] m = m.
Proof.
  unfold glCalls, setWebgl. destruct m. simpl. f_equal.
  apply map_eq. intros i. destruct (decide (i = g)) as [->|Hne].
  - rewrite lookup_alter_eq. by destruct (_ !! g).
  - by rewrite lookup_alter_ne.
Qed.

Lemma perform_calls g calls : ∀ m,
  MediaEffect.perform ((λ call, (g, call)) <$> calls) m = glCalls g calls m.
Proof.
  unfold MediaEffect.perform.
  induction calls as [|call calls IH]; intros m; simpl.
  - by rewrite glCalls_nil.
  - rewrite IH. by rewrite <-glCalls_cons.
Qed.

(** X20.  [render] with a renderer that is ready and a cache that holds all
    six objects for the context: the call returns; it creates nothing and
    reports nothing; and the calls it makes on the context are those of
    [renderCalls], in that order.  Made one by one on the contexts of a
    pool, they are the step [OpGl] of the sequences of calls on the pool. *)
Theorem render_complete g updatesOnRender gpu w fx r :
  MediaEffect.cache w !! g = Some r → MediaEffect.complete fx r →
  MediaEffect.render g true updatesOnRender gpu w
  = MediaEffect.Done tt
      (MediaEffect.issue g (renderCalls updatesOnRender fx) w)
  ∧ ∀ m, MediaEffect.perform
           ((λ call, (g, call)) <$> renderCalls updatesOnRender fx) m
         = step m (OpGl g (renderCalls updatesOnRender fx)).
Proof.
  intros Hr Hc. split; [|intros m; apply perform_calls].
  destruct fx as [p pb tb t p1 p2].
  unfold MediaEffect.complete, MediaEffect.filled in Hc. simpl in Hc. subst r.
  assert (Hget : ∀ k, MediaEffect.cacheGet g k w = Some
            match k with
            | MediaEffect.KProgram => p
            | MediaEffect.KTexture => t
            | MediaEffect.KPattern1Texture => p1
            | MediaEffect.KPattern2Texture => p2
            | MediaEffect.KPositionBuffer => pb
            | MediaEffect.KTexCoordBuffer => tb
            end).
  { intros k. unfold MediaEffect.cacheGet. rewrite Hr. by destruct k. }
  unfold MediaEffect.render. simpl.
  rewrite ensureCache_cached by (intros k; rewrite Hget; eauto).
  simpl. rewrite !Hget. unfold renderCalls. simpl.
  destruct updatesOnRender; [by rewrite issue_issue|done].
Qed.

Lemma render_complete_witness :
  MediaEffect.render 0 true true MediaEffect.generous MediaEffect.warm
  = MediaEffect.Done tt
      (MediaEffect.issue 0
         (renderCalls true
            {| fxProgram := 1; positionBuffer := 2; texCoordBuffer := 3;
               texture := 4; pattern1Texture := 5; pattern2Texture := 6 |})
         MediaEffect.warm).
Proof.
  eapply render_complete.
  - vm_compute. reflexivity.
  - vm_compute. reflexivity.
Defined.

Lemma unlessCached_id g k (create : MediaEffect.World → MediaEffect.World) w :
  (∀ w0, create w0 = w0) → MediaEffect.unlessCached g k create w = w.
Proof.
  intros H. unfold MediaEffect.unlessCached.
  by destruct (MediaEffect.cacheGet g k w).
Qed.

(** X21.  While the media is not ready, [ensureCache] (and so [prepare])
    creates and caches no texture: for each of the three texture keys the
    cache holds after the call what it held before, whatever the context
    would answer.  [render] in that case returns at once and changes
    nothing. *)
Theorem not_ready_no_textures g gpu w updatesOnRender :
  let w' := MediaEffect.world (MediaEffect.prepare g false gpu w) in
  MediaEffect.cacheGet g MediaEffect.KTexture w'
  = MediaEffect.cacheGet g MediaEffect.KTexture w
  ∧ MediaEffect.cacheGet g MediaEffect.KPattern1Texture w'
    = MediaEffect.cacheGet g MediaEffect.KPattern1Texture w
  ∧ MediaEffect.cacheGet g MediaEffect.KPattern2Texture w'
    = MediaEffect.cacheGet g MediaEffect.KPattern2Texture w
  ∧ MediaEffect.render g false updatesOnRender gpu w = MediaEffect.Done tt w.
Proof.
  assert (Hkeep : ∀ k, k ≠ MediaEffect.KProgram →
            k ≠ MediaEffect.KPositionBuffer → k ≠ MediaEffect.KTexCoordBuffer →
            MediaEffect.cacheGet g k
              (MediaEffect.world (MediaEffect.prepare g false gpu w))
            = MediaEffect.cacheGet g k w).
  { intros k H1 H2 H3.
    unfold MediaEffect.prepare, MediaEffect.ensureCache.
    assert (S1 : MediaEffect.cacheGet g k (MediaEffect.world
       match MediaEffect.cacheGet g MediaEffect.KProgram w with
       | Some _ => MediaEffect.Done () w
       | None => MediaEffect.compileProgram g gpu w
       end) = MediaEffect.cacheGet g k w).
    { destruct (MediaEffect.cacheGet g MediaEffect.KProgram w); [done|].
      unfold MediaEffect.compileProgram.
      destruct (MediaEffect.createProgram gpu); [|done].
      destruct (compileShader_extends g MediaEffect.VERTEX_SHADER gpu w)
        as [_ C1].
      destruct (MediaEffect.compileShader g MediaEffect.VERTEX_SHADER gpu w)
        as [a w1|e w1]; simpl in *;
        [|unfold MediaEffect.cacheGet; by rewrite C1].
      destruct (compileShader_extends g MediaEffect.FRAGMENT_SHADER gpu w1)
        as [_ C2].
      destruct (MediaEffect.compileShader g MediaEffect.FRAGMENT_SHADER gpu w1)
        as [b w2|e w2]; simpl in *.
      - rewrite cacheGet_cacheSet_other_key by done.
        unfold MediaEffect.cacheGet. by rewrite C2, C1.
      - unfold MediaEffect.cacheGet. by rewrite C2, C1. }
    destruct (match MediaEffect.cacheGet g MediaEffect.KProgram w with
              | Some _ => MediaEffect.Done () w
              | None => MediaEffect.compileProgram g gpu w
              end) as [[] w1|e w1]; simpl in *; [|done].
    rewrite <-S1. clear S1.
    assert (S2 : MediaEffect.cacheGet g k (MediaEffect.world
       match MediaEffect.cacheGet g MediaEffect.KPositionBuffer w1 with
       | Some _ => MediaEffect.Done () w1
       | None => MediaEffect.createPositionBuffer g gpu w1
       end) = MediaEffect.cacheGet g k w1).
    { destruct (MediaEffect.cacheGet g MediaEffect.KPositionBuffer w1);
        [done|]. unfold MediaEffect.createPositionBuffer.
      destruct (MediaEffect.createPositionBufferObject gpu); [|done].
      simpl. by rewrite cacheGet_cacheSet_other_key. }
    destruct (match MediaEffect.cacheGet g MediaEffect.KPositionBuffer w1 with
              | Some _ => MediaEffect.Done () w1
              | None => MediaEffect.createPositionBuffer g gpu w1
              end) as [[] w2|e w2]; simpl in *; [|done].
    rewrite <-S2. clear S2.
    rewrite !(unlessCached_id _ _ (MediaEffect.loadTexture g false _ gpu))
      by done.
    unfold MediaEffect.unlessCached, MediaEffect.createTexCoordBuffer.
    destruct (MediaEffect.cacheGet g MediaEffect.KTexCoordBuffer w2); [done|].
    destruct (MediaEffect.createTexCoordBufferObject gpu); [|done].
    by rewrite cacheGet_cacheSet_other_key. }
  simpl. repeat split; try (by apply Hkeep).
Qed.

(** ** The calls of a renderer on its context *)

Lemma adds_refl g w : adds g w w.
Proof. exists []. by rewrite app_nil_r. Qed.

Lemma adds_trans g w1 w2 w3 : adds g w1 w2 → adds g w2 w3 → adds g w1 w3.
Proof.
  intros (c1 & H1 & F1) (c2 & H2 & F2). exists (c1 ++ c2).
  rewrite H2, H1, fmap_app, app_assoc. split; [done|by apply Forall_app].
Qed.

Lemma adds_same g w w' :
  MediaEffect.issued w' = MediaEffect.issued w → adds g w w'.
Proof. intros H. exists []. by rewrite app_nil_r. Qed.

Lemma adds_issue g calls w :
  Forall (λ call, keepsBlend call = true) calls →
  adds g w (MediaEffect.issue g calls w).
Proof. intros H. by exists calls. Qed.

Lemma compileShader_issued g ty gpu w :
  MediaEffect.issued (MediaEffect.world (MediaEffect.compileShader g ty gpu w))
  = MediaEffect.issued w.
Proof.
  unfold MediaEffect.compileShader.
  destruct (MediaEffect.createShader gpu ty); [|done].
  destruct (MediaEffect.compileStatus gpu ty); [done|].
  by destruct (MediaEffect.shaderInfoLog gpu ty) as [[|a s]|].
Qed.

Lemma compileProgram_adds g gpu w :
  adds g w (MediaEffect.world (MediaEffect.compileProgram g gpu w)).
Proof.
  apply adds_same. unfold MediaEffect.compileProgram.
  destruct (MediaEffect.createProgram gpu); [|done].
  pose proof (compileShader_issued g MediaEffect.VERTEX_SHADER gpu w) as H1.
  destruct (MediaEffect.compileShader g MediaEffect.VERTEX_SHADER gpu w)
    as [a w1|e w1]; simpl in *; [|done].
  pose proof (compileShader_issued g MediaEffect.FRAGMENT_SHADER gpu w1) as H2.
  destruct (MediaEffect.compileShader g MediaEffect.FRAGMENT_SHADER gpu w1)
    as [b w2|e w2]; simpl in *; congruence.
Qed.

Lemma createPositionBuffer_adds g gpu w :
  adds g w (MediaEffect.world (MediaEffect.createPositionBuffer g gpu w)).
Proof.
  apply adds_same. unfold MediaEffect.createPositionBuffer.
  by destruct (MediaEffect.createPositionBufferObject gpu).
Qed.

Lemma createTexCoordBuffer_adds g gpu w :
  adds g w (MediaEffect.createTexCoordBuffer g gpu w).
Proof.
  unfold MediaEffect.createTexCoordBuffer.
  destruct (MediaEffect.createTexCoordBufferObject gpu) as [b|];
    [|apply adds_refl].
  apply (adds_trans _ _
           (MediaEffect.issue g [GL.bindBuffer GL.ARRAY_BUFFER (Some b)] w));
    [apply adds_issue; by repeat constructor|by apply adds_same].
Qed.

Lemma loadTexture_adds g ready k gpu w :
  adds g w (MediaEffect.loadTexture g ready k gpu w).
Proof.
  unfold MediaEffect.loadTexture. destruct ready; [|apply adds_refl]. simpl.
  destruct (MediaEffect.createTexture gpu k) as [t|]; [|apply adds_refl].
  apply (adds_trans _ _ (MediaEffect.issue g [GL.bindTexture (Some t)] w));
    [apply adds_issue; by repeat constructor|by apply adds_same].
Qed.

Lemma unlessCached_adds g k create w :
  (∀ w0, adds g w0 (create w0)) →
  adds g w (MediaEffect.unlessCached g k create w).
Proof.
  intros H. unfold MediaEffect.unlessCached.
  destruct (MediaEffect.cacheGet g k w); [apply adds_refl|apply H].
Qed.

Lemma ensureCache_adds g ready gpu w :
  adds g w (MediaEffect.world (MediaEffect.ensureCache g ready gpu w)).
Proof.
  unfold MediaEffect.ensureCache.
  assert (A1 : adds g w (MediaEffect.world
            match MediaEffect.cacheGet g MediaEffect.KProgram w with
            | Some _ => MediaEffect.Done () w
            | None => MediaEffect.compileProgram g gpu w
            end)).
  { destruct (MediaEffect.cacheGet g MediaEffect.KProgram w);
      [apply adds_refl|apply compileProgram_adds]. }
  destruct (match MediaEffect.cacheGet g MediaEffect.KProgram w with
            | Some _ => MediaEffect.Done () w
            | None => MediaEffect.compileProgram g gpu w
            end) as [[] w1|e w1]; simpl in *; [|done].
  assert (A2 : adds g w1 (MediaEffect.world
            match MediaEffect.cacheGet g MediaEffect.KPositionBuffer w1 with
            | Some _ => MediaEffect.Done () w1
            | None => MediaEffect.createPositionBuffer g gpu w1
            end)).
  { destruct (MediaEffect.cacheGet g MediaEffect.KPositionBuffer w1);
      [apply adds_refl|apply createPositionBuffer_adds]. }
  destruct (match MediaEffect.cacheGet g MediaEffect.KPositionBuffer w1 with
            | Some _ => MediaEffect.Done () w1
            | None => MediaEffect.createPositionBuffer g gpu w1
            end) as [[] w2|e w2]; simpl in *; [|by eapply adds_trans].
  eapply adds_trans; [exact A1|]. eapply adds_trans; [exact A2|].
  eapply adds_trans;
    [apply unlessCached_adds; intros; apply createTexCoordBuffer_adds|].
  eapply adds_trans;
    [apply unlessCached_adds; intros; apply loadTexture_adds|].
  eapply adds_trans;
    [apply unlessCached_adds; intros; apply loadTexture_adds|].
  apply unlessCached_adds; intros; apply loadTexture_adds.
Qed.

Lemma render_adds g ready updatesOnRender gpu w :
  adds g w
    (MediaEffect.world (MediaEffect.render g ready updatesOnRender gpu w)).
Proof.
  unfold MediaEffect.render. destruct ready; simpl; [|apply adds_refl].
  pose proof (ensureCache_adds g true gpu w) as A.
  destruct (MediaEffect.ensureCache g true gpu w) as [[] w1|e w1];
    simpl in *; [|done].
  eapply adds_trans; [exact A|].
  eapply adds_trans; [|apply adds_issue; by repeat constructor].
  destruct updatesOnRender; [|apply adds_refl].
  apply adds_issue. by repeat constructor.
Qed.

Lemma adds_quiet g w w' :
  adds g w w' →
  ∃ calls,
    MediaEffect.issued w'
    = MediaEffect.issued w ++ ((λ call, (g, call)) <$> calls)
    ∧ Forall quiet (asOps ((λ call, (g, call)) <$> calls)).
Proof.
  intros (calls & H & F). exists calls. split; [done|].
  unfold asOps. rewrite <-list_fmap_compose.
  apply Forall_fmap. eapply Forall_impl; [exact F|].
  intros call Hc. simpl. by repeat constructor.
Qed.

(** X24.  Whatever the state of the renderer and whatever the context
    answers, and whether the call returns or throws: the calls that
    [render] and [prepare] make go to the context they are given and to no
    other, and none of them is [enable(BLEND)] or [blendFunc].  As steps on
    a pool they are steps that leave the set-up of blending alone, so a
    sequence of calls on a pool between which renderers draw, for the first
    time or again, is one of the sequences of X13. *)
Theorem render_calls_quiet g ready updatesOnRender gpu w :
  (∃ calls,
     MediaEffect.issued
       (MediaEffect.world (MediaEffect.render g ready updatesOnRender gpu w))
     = MediaEffect.issued w ++ ((λ call, (g, call)) <$> calls)
     ∧ Forall quiet (asOps ((λ call, (g, call)) <$> calls)))
  ∧ (∃ calls,
       MediaEffect.issued
         (MediaEffect.world (MediaEffect.prepare g ready gpu w))
       = MediaEffect.issued w ++ ((λ call, (g, call)) <$> calls)
       ∧ Forall quiet (asOps ((λ call, (g, call)) <$> calls))).
Proof.
  split; apply adds_quiet; [apply render_adds|apply ensureCache_adds].
Qed.

(** * Properties of the texture sources *)

Lemma string_prefix_app (s t : string) : String.prefix s (s +:+ t) = true.
Proof.
  induction s as [|a s IH]; simpl; [by destruct t|].
  destruct (Ascii.ascii_dec a a); [exact IH|done].
Qed.

Lemma string_prefix_refl (s : string) : String.prefix s s = true.
Proof.
  induction s as [|a s IH]; simpl; [done|].
  destruct (Ascii.ascii_dec a a); [exact IH|done].
Qed.

(** X22.  The address that [ImageTextureManager] requests.  An address that
    starts with [blob] is requested as it is.  Any other address gets the
    suffix [?dt=] and the time of the construction in decimal; two such
    requests for one address are equal only when the two times are, so a
    later manager never asks for the address an earlier one asked for.  In
    both cases the given address is a prefix of the requested one. *)
Theorem imageSrc_spec url t1 t2 :
  (String.prefix "blob" url = true → ImageTextureManager.src url t1 = url)
  ∧ (String.prefix "blob" url = false →
     (ImageTextureManager.src url t1 = ImageTextureManager.src url t2
      ↔ t1 = t2))
  ∧ String.prefix url (ImageTextureManager.src url t1) = true.
Proof.
  unfold ImageTextureManager.src. split; [|split].
  - by intros ->.
  - intros ->. split; [|by intros ->].
    intros H. apply (inj (String.app url)) in H.
    apply (inj (String.app "?dt=")) in H. by apply (inj pretty) in H.
  - destruct (String.prefix "blob" url).
    + apply string_prefix_refl.
    + apply string_prefix_app.
Qed.

Lemma VideoTextureManager_run_snoc evs ev s :
  VideoTextureManager.run (evs ++ [ev]) s
  = VideoTextureManager.step (VideoTextureManager.run evs s) ev.
Proof. unfold VideoTextureManager.run. by rewrite foldl_snoc. Qed.

(** X23.  [VideoTextureManager], after every sequence of method calls and
    callbacks from its construction on.  A listener is only ever called
    with [true], only if it has subscribed, and only once the manager is
    ready.  The manager is ready only if the metadata has been loaded and a
    promise of [play()] has been fulfilled.  Once ready it stays ready,
    whatever happens next. *)
Theorem videoTextureManager_ready evs :
  let s := VideoTextureManager.run evs VideoTextureManager.new in
  (∀ l b, (l, b) ∈ VideoTextureManager.called s →
     b = true ∧ l ∈ VideoTextureManager.listeners s
     ∧ VideoTextureManager.ready s = true)
  ∧ (VideoTextureManager.ready s = true →
     VideoTextureManager.LoadedMetadata ∈ evs
     ∧ VideoTextureManager.PlayFulfilled ∈ evs)
  ∧ (∀ evs', VideoTextureManager.ready s = true →
     VideoTextureManager.ready (VideoTextureManager.run evs' s) = true).
Proof.
  simpl. split; [|split].
  - induction evs as [|ev evs IH] using rev_ind.
    { intros l b H. by apply elem_of_nil in H. }
    rewrite VideoTextureManager_run_snoc.
    set (s := VideoTextureManager.run evs VideoTextureManager.new) in *.
    intros l b. destruct ev as [l'| | |]; simpl.
    + intros H. destruct (IH l b H) as (? & ? & ?).
      repeat split; [done| |done]. apply elem_of_app. by left.
    + apply IH.
    + destruct (VideoTextureManager.playing s); [apply IH|]. simpl.
      intros [H|H]%elem_of_app.
      * destruct (IH l b H) as (? & ? & ?). done.
      * apply list_elem_of_fmap in H as (l0 & [= -> ->] & Hl0). done.
    + destruct (VideoTextureManager.playing s); apply IH.
  - assert (Hinv : ∀ evs0,
      let s := VideoTextureManager.run evs0 VideoTextureManager.new in
      (VideoTextureManager.playing s ≠ 0%nat →
         VideoTextureManager.LoadedMetadata ∈ evs0)
      ∧ (VideoTextureManager.isReady s = true →
         VideoTextureManager.LoadedMetadata ∈ evs0
         ∧ VideoTextureManager.PlayFulfilled ∈ evs0)).
    { intros evs0. induction evs0 as [|ev evs0 IH] using rev_ind; [done|].
      simpl in *. rewrite VideoTextureManager_run_snoc.
      destruct IH as [IH1 IH2].
      set (s := VideoTextureManager.run evs0 VideoTextureManager.new) in *.
      assert (Hold : ∀ x, x ∈ evs0 → x ∈ evs0 ++ [ev])
        by (intros x Hx; apply elem_of_app; by left).
      assert (Hnew : ev ∈ evs0 ++ [ev])
        by (apply elem_of_app; right; by apply list_elem_of_singleton).
      destruct ev as [l'| | |]; simpl.
      - split; [intros H; by apply Hold, IH1|].
        intros H. destruct (IH2 H). split; by apply Hold.
      - split; [intros _; exact Hnew|].
        intros H. destruct (IH2 H). split; by apply Hold.
      - destruct (VideoTextureManager.playing s) eqn:Hp; simpl.
        + split; [done|]. intros H. destruct (IH2 H). split; by apply Hold.
        + assert (Hlm : VideoTextureManager.LoadedMetadata ∈ evs0)
            by (by apply IH1).
          split; intros _; [by apply Hold|]. split; [by apply Hold|exact Hnew].
      - destruct (VideoTextureManager.playing s) eqn:Hp; simpl.
        + split; [done|]. intros H. destruct (IH2 H). split; by apply Hold.
        + assert (Hlm : VideoTextureManager.LoadedMetadata ∈ evs0)
            by (by apply IH1).
          split; [intros _; by apply Hold|].
          intros H. destruct (IH2 H). split; by apply Hold. }
    apply Hinv.
  - intros evs'. unfold VideoTextureManager.ready.
    generalize (VideoTextureManager.run evs VideoTextureManager.new).
    unfold VideoTextureManager.run.
    induction evs' as [|ev evs' IH]; intros s Hs; simpl; [done|].
    apply IH. destruct ev; simpl; try done;
      by destruct (VideoTextureManager.playing s).
Qed.
